(** * PostgreSQL adapter of toutago-datamapper: named-parameter templates
      and INSERT statement building

    A shallow embedding of [adapter.go]: the two template functions
    [extractArgs] and [replaceNamedParams], and the adapter methods
    [Fetch], [Insert] (with [insertWithReturning] and [insertBulk]),
    [Update] and [Delete], run against a scripted database driver. *)

From Stdlib Require Import Ascii String.
From stdpp Require Import gmap strings list pretty.

Local Open Scope string_scope.
Local Open Scope list_scope.

(** ** Values, errors, maps *)

(** A Go [map[string]interface{}] is a reference: either the nil map or a
    map allocated at some location of the store. *)
Definition loc := nat.

Inductive mapref :=
| NilMap
| MapAt (l : loc).

(** What an [interface{}] holds.  Only one distinction is ever inspected by
    the adapter: whether the dynamic type is [map[string]interface{}]. *)
Inductive value :=
| VNil
| VInt (z : Z)
| VString (s : string)
| VBool (b : bool)
| VMap (r : mapref).

(** Go [error] values met in the adapter: the sentinel [adapter.ErrNotFound],
    [fmt.Errorf] without and with a wrapped cause ([%w]), and the errors that
    [database/sql] hands back. *)
Inductive error :=
| ErrNotFound
| Errorf (msg : string)
| ErrorfW (msg : string) (cause : error)
| DriverError (msg : string).

(** ** The template translator

    [range query] walks a Go string character by character and
    [string(ch)] gives the character back.  A template is taken here as
    the sequence of its characters: on UTF-8 text the two braces are single
    bytes that occur in no longer encoding, so nothing changes when that
    sequence is the sequence of bytes. *)

Module Translator.

(** State of the first loop of [extractArgs]. *)
Record scan_state := ScanState {
  inBrace : bool;
  paramName : string;
  paramNames : list string
}.

Definition scan_init : scan_state :=
  {| inBrace := false; paramName := ""; paramNames := [] |}.

(** One iteration of [for _, ch := range query] in [extractArgs]. *)
Definition scan_step (st : scan_state) (ch : ascii) : scan_state :=
  if bool_decide (ch = "{"%char) then
    {| inBrace := true; paramName := ""; paramNames := paramNames st |}
  else if bool_decide (ch = "}"%char) && inBrace st then
    {| inBrace := false; paramName := paramName st;
       paramNames := paramNames st ++ [paramName st] |}
  else if inBrace st then
    {| inBrace := true; paramName := paramName st +:+ String ch "";
       paramNames := paramNames st |}
  else st.

Fixpoint scan (query : string) (st : scan_state) : scan_state :=
  match query with
  | "" => st
  | String ch rest => scan rest (scan_step st ch)
  end.

(** The names collected by the first loop, in the order of their closing
    brace. *)
Definition placeholderNames (query : string) : list string :=
  paramNames (scan query scan_init).

Definition missingParameter (name : string) : error :=
  Errorf ("postgresql: missing parameter: " +:+ name).

(** The second loop of [extractArgs]: [args] is the slice built so far.
    A Go result pair [(slice, error)] is a pair of options, [None] being
    [nil]. *)
Fixpoint lookupAll (params : gmap string value) (names : list string)
    (args : list value) : option (list value) * option error :=
  match names with
  | [] => (Some args, None)
  | name :: rest =>
      match params !! name with
      | None => (None, Some (missingParameter name))
      | Some val => lookupAll params rest (args ++ [val])
      end
  end.

Definition extractArgs (query : string) (params : gmap string value)
    : option (list value) * option error :=
  lookupAll params (placeholderNames query) [].

(** State of the loop of [replaceNamedParams].  [paramIndex] is a Go [int];
    it is at most one more than the number of characters read, so it never
    wraps and a natural number holds it. *)
Record repl_state := ReplState {
  result : string;
  rInBrace : bool;
  paramIndex : nat
}.

Definition repl_init : repl_state :=
  {| result := ""; rInBrace := false; paramIndex := 1 |}.

(** [fmt.Sprintf("$%d", k)] *)
Definition marker (k : nat) : string := "$" +:+ pretty k.

Definition repl_step (st : repl_state) (ch : ascii) : repl_state :=
  if bool_decide (ch = "{"%char) then
    {| result := result st +:+ marker (paramIndex st); rInBrace := true;
       paramIndex := paramIndex st + 1 |}
  else if bool_decide (ch = "}"%char) && rInBrace st then
    {| result := result st; rInBrace := false; paramIndex := paramIndex st |}
  else if negb (rInBrace st) then
    {| result := result st +:+ String ch ""; rInBrace := rInBrace st;
       paramIndex := paramIndex st |}
  else st.

Fixpoint repl (query : string) (st : repl_state) : repl_state :=
  match query with
  | "" => st
  | String ch rest => repl rest (repl_step st ch)
  end.

Definition replaceNamedParams (query : string) : string :=
  result (repl query repl_init).

(** How many markers [replaceNamedParams] emits: [paramIndex] starts at 1 and
    is incremented at each [Sprintf]. *)
Definition markerCount (query : string) : nat :=
  paramIndex (repl query repl_init) - 1.

End Translator.

Import Translator.

(** ** The adapter and the database driver *)

Module Adapter.

(** [adapter.PropertyMapping] and [adapter.Operation] of the mapping
    framework, with the fields the adapter reads. *)
Record Property := {
  ObjectField : string;
  DataField : string
}.

Record Operation := {
  Statement : string;
  Properties : list Property;
  Generated : list Property;
  Multi : bool
}.

(** What the driver answers to [QueryContext]: an error, a cursor whose
    [Columns] fails, or a cursor with its column names, the rows that [Next]
    steps through (each either scans or fails to) and the final [rows.Err]. *)
Inductive query_reply :=
| QueryFails (e : error)
| ColumnsFail (e : error)
| Cursor (columns : list string) (rows : list (error + list value))
    (iterErr : option error).

(** What the driver answers to [ExecContext]: an error, or a result whose
    [RowsAffected] is an error or a count. *)
Inductive exec_reply :=
| ExecFails (e : error)
| ExecDone (rowsAffected : error + Z).

(** What [QueryRowContext(...).Scan] finds: an error, or one row. *)
Inductive row_reply :=
| RowFails (e : error)
| Row (values : list value).

(** The database handle [*sql.DB] as a script: the reply to each call is
    fixed by the number of calls made before it.  Whatever a database does
    during one run of a method is the run of some script, and the
    properties below hold for all scripts. *)
Record sqlDB := {
  onQuery : nat → query_reply;
  onExec : nat → exec_reply;
  onQueryRow : nat → row_reply
}.

Record PostgreSQLAdapter := {
  db : option sqlDB;
  dsn : string;
  maxConn : Z;
  maxIdle : Z;
  connMaxAge : Z
}.

Definition NewPostgreSQLAdapter : PostgreSQLAdapter :=
  {| db := None; dsn := ""; maxConn := 10; maxIdle := 5; connMaxAge := 3600 |}.

(** A statement handed to the driver. *)
Inductive call :=
| QueryCall (query : string) (args : list value)
| QueryRowCall (query : string) (args : list value)
| ExecCall (query : string) (args : list value).

(** The store of Go maps (a location not yet written holds the empty map),
    and the statements issued so far. *)
Abbreviation store := (gmap loc (gmap string value)).

Record world := World {
  heap : store;
  calls : list call
}.

Inductive outcome (A : Type) :=
| Returns (a : A) (w : world)
| Panics (msg : string) (w : world).
Arguments Returns {A} a w.
Arguments Panics {A} msg w.

Definition finalWorld {A} (o : outcome A) : world :=
  match o with Returns _ w => w | Panics _ w => w end.

(** Computations over the world that may panic. *)
Definition M (A : Type) : Type := world → outcome A.

Definition ret {A} (a : A) : M A := λ w, Returns a w.

Definition bind {A B} (m : M A) (k : A → M B) : M B := λ w,
  match m w with
  | Returns a w' => k a w'
  | Panics msg w' => Panics msg w'
  end.

Definition panic {A} (msg : string) : M A := λ w, Panics msg w.

#[global] Instance M_ret : MRet M := @ret.
#[global] Instance M_bind : MBind M := λ A B k m, bind m k.

(** [m[k]] on a Go map: the zero value [nil] when the key is absent or the
    map is nil. *)
Definition mapContents (h : store) (obj : mapref)
    : gmap string value :=
  match obj with
  | NilMap => ∅
  | MapAt l => h !!! l
  end.

Definition mapIndex (h : store) (obj : mapref)
    (k : string) : value :=
  default VNil (mapContents h obj !! k).

Definition readContents (obj : mapref) : M (gmap string value) := λ w,
  Returns (mapContents (heap w) obj) w.

(** [m[k] = v]: panics on the nil map. *)
Definition mapAssign (obj : mapref) (k : string) (v : value) : M unit := λ w,
  match obj with
  | NilMap => Panics "assignment to entry in nil map" w
  | MapAt l =>
      Returns tt {| heap := <[l := <[k := v]> (heap w !!! l)]> (heap w);
                    calls := calls w |}
  end.

(** [x.(map[string]interface{})]: panics when [x] holds something else. *)
Definition assertMap (x : value) : M mapref :=
  match x with
  | VMap obj => ret obj
  | _ => panic "interface conversion: interface {} is not map[string]interface {}"
  end.

Definition queryContext (d : sqlDB) (query : string) (args : list value)
    : M query_reply := λ w,
  Returns (onQuery d (length (calls w)))
    {| heap := heap w; calls := calls w ++ [QueryCall query args] |}.

Definition execContext (d : sqlDB) (query : string) (args : list value)
    : M exec_reply := λ w,
  Returns (onExec d (length (calls w)))
    {| heap := heap w; calls := calls w ++ [ExecCall query args] |}.

Definition queryRowContext (d : sqlDB) (query : string) (args : list value)
    : M row_reply := λ w,
  Returns (onQueryRow d (length (calls w)))
    {| heap := heap w; calls := calls w ++ [QueryRowCall query args] |}.

(** [Scan] into [n] destinations: the row must have [n] columns. *)
Definition scanInto (n : nat) (row : error + list value)
    : error + list value :=
  match row with
  | inl e => inl e
  | inr values =>
      if bool_decide (length values = n) then inr values
      else inl (DriverError "sql: wrong number of destination arguments in Scan")
  end.

(** [strings.Join] *)
Fixpoint join (sep : string) (elems : list string) : string :=
  match elems with
  | [] => ""
  | [e] => e
  | e :: rest => e +:+ sep +:+ join sep rest
  end.

(** A Go slice that may still be [nil]: [append] makes it non-nil. *)
Definition appendSlice {A} (s : option (list A)) (x : A) : option (list A) :=
  Some (default [] s ++ [x]).

Definition lenSlice {A} (s : option (list A)) : nat := length (default [] s).

(** [for i, col := range columns { result[col] = values[i] }] *)
Definition buildResult (columns : list string) (values : list value)
    : gmap string value :=
  foldl (λ result cv, <[cv.1 := cv.2]> result) ∅ (zip columns values).

(** The [for rows.Next()] loop of [Fetch].  The result maps are fresh and
    never shared, so they are given by their contents. *)
Fixpoint scanRows (columns : list string) (rows : list (error + list value))
    (results : option (list (gmap string value)))
    : error + option (list (gmap string value)) :=
  match rows with
  | [] => inr results
  | row :: rest =>
      match scanInto (length columns) row with
      | inl err => inl err
      | inr values =>
          scanRows columns rest (appendSlice results (buildResult columns values))
      end
  end.

Definition notConnected : error := Errorf "postgresql: not connected".

Definition Fetch (a : PostgreSQLAdapter) (op : Operation)
    (params : gmap string value)
    : M (option (list (gmap string value)) * option error) :=
  match db a with
  | None => mret (None, Some notConnected)
  | Some d =>
      let query := Statement op in
      match extractArgs query params with
      | (_, Some err) => mret (None, Some err)
      | (args, None) =>
          let query := replaceNamedParams query in
          reply ← queryContext d query (default [] args);
          match reply with
          | QueryFails err =>
              mret (None, Some (ErrorfW "postgresql: query failed: " err))
          | ColumnsFail err =>
              mret (None, Some (ErrorfW "postgresql: failed to get columns: " err))
          | Cursor columns rows iterErr =>
              match scanRows columns rows None with
              | inl err =>
                  mret (None, Some (ErrorfW "postgresql: scan failed: " err))
              | inr results =>
                  match iterErr with
                  | Some err =>
                      mret (None,
                        Some (ErrorfW "postgresql: rows iteration failed: " err))
                  | None =>
                      if bool_decide (lenSlice results = 0) && negb (Multi op)
                      then mret (None, Some ErrNotFound)
                      else mret (results, None)
                  end
              end
          end
      end
  end.

(** The values of one row in column-mapping order: [obj[prop.ObjectField]]. *)
Definition rowValues (h : store) (obj : mapref)
    (props : list Property) : list value :=
  (λ prop, mapIndex h obj (ObjectField prop)) <$> props.

(** [placeholders[i] = fmt.Sprintf("$%d", i+1)] for every property. *)
Definition rowPlaceholders (props : list Property) : list string :=
  imap (λ i _, marker (i + 1)) props.

(** [for i, gen := range op.Generated { obj[gen.ObjectField] = *scanDest[i] }];
    a destination that was never filled holds [nil]. *)
Fixpoint writeBack (obj : mapref) (gens : list Property) (scanDest : list value)
    : M unit :=
  match gens with
  | [] => mret tt
  | gen :: rest =>
      mapAssign obj (ObjectField gen) (hd VNil scanDest);;
      writeBack obj rest (tl scanDest)
  end.

(** The per-object loop of [insertWithReturning]. *)
Fixpoint returningLoop (d : sqlDB) (op : Operation) (columns : list string)
    (returningCols : list string) (objects : list value) : M (option error) :=
  match objects with
  | [] => mret None
  | objInterface :: rest =>
      obj ← assertMap objInterface;
      h ← (λ w, Returns (heap w) w);
      let placeholders := rowPlaceholders (Properties op) in
      let values := rowValues h obj (Properties op) in
      let query := "INSERT INTO " +:+ Statement op +:+ " (" +:+
        join ", " columns +:+ ") VALUES (" +:+ join ", " placeholders +:+
        ") RETURNING " +:+ join ", " returningCols in
      reply ← queryRowContext d query values;
      let scanned :=
        match reply with
        | RowFails err => inl err
        | Row vals => scanInto (length (Generated op)) (inr vals)
        end in
      match scanned with
      | inl err =>
          mret (Some (ErrorfW "postgresql: insert with returning failed: " err))
      | inr scanDest =>
          writeBack obj (Generated op) scanDest;;
          returningLoop d op columns returningCols rest
      end
  end.

Definition insertWithReturning (d : sqlDB) (op : Operation)
    (objects : list value) : M (option error) :=
  let columns := DataField <$> Properties op in
  let returningCols := DataField <$> Generated op in
  returningLoop d op columns returningCols objects.

(** The inner loop of [insertBulk] over the properties of one object.
    [placeholders[j] = ...] fills a slice of the right length from left to
    right, which is appending. *)
Fixpoint bulkPlaceholders (h : store) (obj : mapref)
    (props : list Property) (placeholders : list string) (paramIndex : nat)
    (allValues : list value) : list string * nat * list value :=
  match props with
  | [] => (placeholders, paramIndex, allValues)
  | prop :: rest =>
      bulkPlaceholders h obj rest (placeholders ++ [marker paramIndex])
        (paramIndex + 1) (allValues ++ [mapIndex h obj (ObjectField prop)])
  end.

(** The outer loop of [insertBulk] over the objects. *)
Fixpoint bulkLoop (props : list Property) (objects : list value)
    (valueRows : list string) (paramIndex : nat) (allValues : list value)
    : M (list string * list value) :=
  match objects with
  | [] => mret (valueRows, allValues)
  | objInterface :: rest =>
      obj ← assertMap objInterface;
      h ← (λ w, Returns (heap w) w);
      let '(placeholders, paramIndex', allValues') :=
        bulkPlaceholders h obj props [] paramIndex allValues in
      bulkLoop props rest
        (valueRows ++ ["(" +:+ join ", " placeholders +:+ ")"])
        paramIndex' allValues'
  end.

Definition insertBulk (d : sqlDB) (op : Operation) (objects : list value)
    : M (option error) :=
  let tableName := Statement op in
  let columns := DataField <$> Properties op in
  built ← bulkLoop (Properties op) objects [] 1 [];
  let query := "INSERT INTO " +:+ tableName +:+ " (" +:+
    join ", " columns +:+ ") VALUES " +:+ join ", " built.1 in
  reply ← execContext d query built.2;
  match reply with
  | ExecFails err => mret (Some (ErrorfW "postgresql: bulk insert failed: " err))
  | ExecDone _ => mret None
  end.

Definition Insert (a : PostgreSQLAdapter) (op : Operation)
    (objects : list value) : M (option error) :=
  match db a with
  | None => mret (Some notConnected)
  | Some d =>
      if bool_decide (length objects = 0) then mret None
      else if bool_decide (0 < length (Generated op))
      then insertWithReturning d op objects
      else insertBulk d op objects
  end.

(** The part of [Update] and [Delete] after the parameters are known:
    translate, execute, look at the affected rows.  [None] means: go on with
    the next element. *)
Definition execOne (d : sqlDB) (what : string) (query : string)
    (params : gmap string value) : M (option error) :=
  match extractArgs query params with
  | (_, Some err) => mret (Some err)
  | (args, None) =>
      let pgQuery := replaceNamedParams query in
      reply ← execContext d pgQuery (default [] args);
      match reply with
      | ExecFails err =>
          mret (Some (ErrorfW ("postgresql: " +:+ what +:+ " failed: ") err))
      | ExecDone (inl err) =>
          mret (Some (ErrorfW "postgresql: failed to get rows affected: " err))
      | ExecDone (inr rowsAffected) =>
          if bool_decide (rowsAffected = 0%Z) then mret (Some ErrNotFound)
          else mret None
      end
  end.

Fixpoint updateLoop (d : sqlDB) (query : string) (objects : list value)
    : M (option error) :=
  match objects with
  | [] => mret None
  | objInterface :: rest =>
      obj ← assertMap objInterface;
      params ← readContents obj;
      r ← execOne d "update" query params;
      match r with
      | Some err => mret (Some err)
      | None => updateLoop d query rest
      end
  end.

Definition Update (a : PostgreSQLAdapter) (op : Operation)
    (objects : list value) : M (option error) :=
  match db a with
  | None => mret (Some notConnected)
  | Some d => updateLoop d (Statement op) objects
  end.

(** [params] of one identifier in [Delete]: the map itself, or a fresh map
    holding the identifier under ["id"]. *)
Definition idParams (id : value) : M (gmap string value) :=
  match id with
  | VMap idMap => readContents idMap
  | _ => mret {[ "id" := id ]}
  end.

Fixpoint deleteLoop (d : sqlDB) (query : string) (identifiers : list value)
    : M (option error) :=
  match identifiers with
  | [] => mret None
  | id :: rest =>
      params ← idParams id;
      r ← execOne d "delete" query params;
      match r with
      | Some err => mret (Some err)
      | None => deleteLoop d query rest
      end
  end.

Definition Delete (a : PostgreSQLAdapter) (op : Operation)
    (identifiers : list value) : M (option error) :=
  match db a with
  | None => mret (Some notConnected)
  | Some d => deleteLoop d (Statement op) identifiers
  end.

End Adapter.

(** ** Templates in structured form

    The statements of the translator's properties speak about a template as
    a leading text followed by placeholders, each with the text after it.
    These definitions follow the description of a template, not the code. *)

Module Template.

(** Number of occurrences of a character. *)
Fixpoint occurs (c : ascii) (s : string) : nat :=
  match s with
  | "" => 0
  | String ch rest => (if bool_decide (ch = c) then 1 else 0) + occurs c rest
  end.

(** A placeholder [{name}] and the text that follows it. *)
Definition segment : Type := string * string.

Fixpoint template_of (segs : list segment) : string :=
  match segs with
  | [] => ""
  | seg :: rest => "{" +:+ seg.1 +:+ "}" +:+ seg.2 +:+ template_of rest
  end.

(** The name holds no brace, the text after it no opening brace. *)
Definition clean_segment (seg : segment) : Prop :=
  occurs "{" seg.1 = 0 ∧ occurs "}" seg.1 = 0 ∧ occurs "{" seg.2 = 0.


(** Every opening brace is closed before the next one and before the end. *)
Fixpoint wellBracedFrom (inb : bool) (t : string) : bool :=
  match t with
  | "" => negb inb
  | String ch rest =>
      if bool_decide (ch = "{"%char) then negb inb && wellBracedFrom true rest
      else if bool_decide (ch = "}"%char) && inb then wellBracedFrom false rest
      else wellBracedFrom inb rest
  end.

Definition wellBraced (t : string) : bool := wellBracedFrom false t.

(** The parameter map has an entry for every placeholder name. *)
Definition covers (p : gmap string value) (t : string) : Prop :=
  ∀ name, name ∈ placeholderNames t → is_Some (p !! name).

End Template.

Import Template.

(** ** The shape of the INSERT statements

    Closed forms of what the two insert paths are to build, written from the
    description of the statements. *)

Module InsertShape.

Import Adapter.

(** The markers from [from] on, [n] of them, in parentheses. *)
Definition tuple (from n : nat) : string :=
  "(" +:+ join ", " (marker <$> seq from n) +:+ ")".

Definition columnList (props : list Property) : string :=
  join ", " (DataField <$> props).

(** One statement for [rows] rows: the tuple of row [i] (counted from 0)
    starts at marker [i * columns + 1]. *)
Definition bulkStatement (op : Operation) (rows : nat) : string :=
  let n := length (Properties op) in
  "INSERT INTO " +:+ Statement op +:+ " (" +:+ columnList (Properties op) +:+
  ") VALUES " +:+ join ", " ((λ i, tuple (i * n + 1) n) <$> seq 0 rows).

(** The values of all rows, row after row. *)
Definition bulkArgs (h : store) (op : Operation) (objs : list mapref)
    : list value :=
  concat ((λ obj, rowValues h obj (Properties op)) <$> objs).

(** The statement of every single row when columns are generated. *)
Definition returningStatement (op : Operation) : string :=
  "INSERT INTO " +:+ Statement op +:+ " (" +:+ columnList (Properties op) +:+
  ") VALUES " +:+ tuple 1 (length (Properties op)) +:+
  " RETURNING " +:+ columnList (Generated op).

(** Writing the scanned values back: the i-th value goes to the object
    field of the i-th generated mapping. *)
Definition writeBackMap (gens : list Property) (vals : list value)
    (m : gmap string value) : gmap string value :=
  foldl (λ m gv, <[ObjectField gv.1 := gv.2]> m) m (zip gens vals).

(** The row scripted for call number [n]. *)
Definition scriptedRow (d : sqlDB) (n : nat) : list value :=
  match onQueryRow d n with
  | Row vals => vals
  | RowFails _ => []
  end.

(** The store after the rows at [ls] received, in order, the values scripted
    from call number [n] on. *)
Fixpoint storeAfter (d : sqlDB) (gens : list Property) (n : nat)
    (ls : list loc) (h : store) : store :=
  match ls with
  | [] => h
  | l :: rest =>
      storeAfter d gens (S n) rest
        (<[l := writeBackMap gens (scriptedRow d n) (h !!! l)]> h)
  end.

(** The statements issued for the rows at [ls], the first being call
    number [n]. *)
Fixpoint returningCalls (d : sqlDB) (op : Operation) (n : nat)
    (ls : list loc) (h : store) : list call :=
  match ls with
  | [] => []
  | l :: rest =>
      QueryRowCall (returningStatement op) (rowValues h (MapAt l) (Properties op))
      :: returningCalls d op (S n) rest
           (<[l := writeBackMap (Generated op) (scriptedRow d n) (h !!! l)]> h)
  end.

End InsertShape.

(** ** Notions used to state the properties of the methods *)

Module Signals.

Import Adapter.


(** A loop that handles its elements one by one through [execOne]: the
    common form of [updateLoop] and [deleteLoop]. *)
Definition stepwise (d : sqlDB) (loop : list value → M (option error))
    (paramsOf : value → M (gmap string value)) (what query : string) : Prop :=
  loop [] = mret None ∧
  ∀ x rest, loop (x :: rest) =
    (params ← paramsOf x;
     r ← execOne d what query params;
     match r with
     | Some err => mret (Some err)
     | None => loop rest
     end).

(** Reading the parameters changes neither store nor statements. *)
Definition readOnly (paramsOf : value → M (gmap string value)) : Prop :=
  ∀ x w, (∃ params, paramsOf x w = Returns params w) ∨
         (∃ msg, paramsOf x w = Panics msg w).

End Signals.

(** ** A small database to run the methods on *)

Module Demo.

Import Adapter.

(** Every [Exec] affects two rows; the n-th call, if a single-row query,
    returns the generated identifier [100 + n]. *)
Definition driver : sqlDB :=
  {| onQuery := λ _, QueryFails (DriverError "no query");
     onExec := λ _, ExecDone (inr 2%Z);
     onQueryRow := λ n, Row [VInt (100 + Z.of_nat n)] |}.

Definition adapter : PostgreSQLAdapter :=
  {| db := Some driver; dsn := ""; maxConn := 10; maxIdle := 5;
     connMaxAge := 3600 |}.

Definition columns : list Property :=
  [ {| ObjectField := "Name"; DataField := "name" |};
    {| ObjectField := "Email"; DataField := "email" |} ].

Definition bulkOp : Operation :=
  {| Statement := "users"; Properties := columns; Generated := [];
     Multi := false |}.

Definition returningOp : Operation :=
  {| Statement := "users"; Properties := columns;
     Generated := [ {| ObjectField := "ID"; DataField := "id" |} ];
     Multi := false |}.

Definition ann : gmap string value :=
  <["Name" := VString "Ann"]> (<["Email" := VString "ann@x"]> ∅).

Definition bob : gmap string value :=
  <["Name" := VString "Bob"]> (<["Email" := VString "bob@x"]> ∅).

Definition rows : store := <[1 := ann]> (<[2 := bob]> ∅).

Definition start : world := {| heap := rows; calls := [] |}.

End Demo.

(** ** Custom statements *)

Module Actions.

Import Adapter.

(** [adapter.Action] of the mapping framework, with the field the adapter
    reads. *)
Record Action := {
  Statement : string
}.

(** [Execute] returns an [interface{}] and an error.  The interface is nil
    ([None]) on the early error returns; at the end it holds the slice
    [results], which may itself still be nil ([Some None]). *)
Definition Execute (a : PostgreSQLAdapter) (action : Action)
    (params : gmap string value)
    : M (option (option (list (gmap string value))) * option error) :=
  match db a with
  | None => mret (None, Some notConnected)
  | Some d =>
      let query := Statement action in
      match extractArgs query params with
      | (_, Some err) => mret (None, Some err)
      | (args, None) =>
          let query := replaceNamedParams query in
          reply ← queryContext d query (default [] args);
          match reply with
          | QueryFails err =>
              mret (None, Some (ErrorfW "postgresql: execute failed: " err))
          | ColumnsFail err =>
              mret (None, Some (ErrorfW "postgresql: failed to get columns: " err))
          | Cursor columns rows iterErr =>
              match scanRows columns rows None with
              | inl err =>
                  mret (None, Some (ErrorfW "postgresql: scan failed: " err))
              | inr results => mret (Some results, iterErr)
              end
          end
      end
  end.

End Actions.

(** ** Configuration and connection *)

Module Config.

Import Adapter.

Definition ConfigHost : string := "host".
Definition ConfigPort : string := "port".
Definition ConfigUser : string := "user".
Definition ConfigPassword : string := "password".
Definition ConfigDatabase : string := "database".
Definition ConfigSSLMode : string := "sslmode".
Definition ConfigMaxConn : string := "max_connections".
Definition ConfigMaxIdle : string := "max_idle".
Definition ConfigConnAge : string := "conn_max_age_seconds".

(** What happens to the handle that [sql.Open] returned. *)
Inductive poolEvent :=
| SetMaxOpenConns (n : Z)
| SetMaxIdleConns (n : Z)
| PingContext
| CloseDB.

(** [sql.Open("postgres", dsn)] and the [PingContext] of the handle it
    returns. *)
Record sqlEnv := {
  sqlOpen : string → error + sqlDB;
  pingContext : string → option error
}.

Section WithFloats.

(** The [float64] values and Go's conversion [int(f)] are taken as given. *)
Context {float64 : Type} (intOfFloat : float64 → Z).

(** A configuration entry by its dynamic type: [int], [float64], [string],
    or anything else. *)
Inductive setting :=
| SInt (n : Z)
| SFloat (f : float64)
| SString (s : string)
| SOther.

(** [config[key].(string)], [config[key].(int)] and
    [config[key].(float64)] in their comma-ok form. *)
Definition assertString (entry : option setting) : option string :=
  match entry with Some (SString val) => Some val | _ => None end.

Definition assertInt (entry : option setting) : option Z :=
  match entry with Some (SInt val) => Some val | _ => None end.

Definition assertFloat (entry : option setting) : option float64 :=
  match entry with Some (SFloat val) => Some val | _ => None end.

Definition getStringConfig (config : gmap string setting)
    (key defaultVal : string) : string :=
  match assertString (config !! key) with
  | Some val => val
  | None => defaultVal
  end.

Definition getIntConfig (config : gmap string setting) (key : string)
    (defaultVal : Z) : Z :=
  match assertInt (config !! key) with
  | Some val => val
  | None =>
      match assertFloat (config !! key) with
      | Some val => intOfFloat val
      | None => defaultVal
      end
  end.

(** [fmt.Sprintf("host=%s port=%d user=%s password=%s dbname=%s sslmode=%s", ...)] *)
Definition formatDSN (host : string) (port : Z)
    (user password database sslMode : string) : string :=
  "host=" +:+ host +:+ " port=" +:+ pretty port +:+ " user=" +:+ user +:+
  " password=" +:+ password +:+ " dbname=" +:+ database +:+
  " sslmode=" +:+ sslMode.

(** [Connect] changes the adapter in place; the result is the adapter
    afterwards, what was done to the opened handle, and the error. *)
Definition Connect (env : sqlEnv) (a : PostgreSQLAdapter)
    (config : gmap string setting)
    : PostgreSQLAdapter * list poolEvent * option error :=
  let host := getStringConfig config ConfigHost "localhost" in
  let port := getIntConfig config ConfigPort 5432 in
  let user := getStringConfig config ConfigUser "postgres" in
  let password := getStringConfig config ConfigPassword "" in
  let database := getStringConfig config ConfigDatabase "" in
  let sslMode := getStringConfig config ConfigSSLMode "disable" in
  let maxConn' :=
    match assertInt (config !! ConfigMaxConn) with
    | Some maxConn => maxConn
    | None => maxConn a
    end in
  let maxIdle' :=
    match assertInt (config !! ConfigMaxIdle) with
    | Some maxIdle => maxIdle
    | None => maxIdle a
    end in
  let connMaxAge' :=
    match assertInt (config !! ConfigConnAge) with
    | Some connAge => connAge
    | None => connMaxAge a
    end in
  let dsn' := formatDSN host port user password database sslMode in
  let a' := {| db := db a; dsn := dsn'; maxConn := maxConn';
               maxIdle := maxIdle'; connMaxAge := connMaxAge' |} in
  match sqlOpen env dsn' with
  | inl err =>
      (a', [], Some (ErrorfW "postgresql: failed to open connection: " err))
  | inr opened =>
      match pingContext env dsn' with
      | Some err =>
          (a',
           [SetMaxOpenConns maxConn'; SetMaxIdleConns maxIdle'; PingContext;
            CloseDB],
           Some (ErrorfW "postgresql: failed to ping database: " err))
      | None =>
          ({| db := Some opened; dsn := dsn'; maxConn := maxConn';
              maxIdle := maxIdle'; connMaxAge := connMaxAge' |},
           [SetMaxOpenConns maxConn'; SetMaxIdleConns maxIdle'; PingContext],
           None)
      end
  end.

(** The three parts of what [Connect] gives. *)
Definition adapterAfter (env : sqlEnv) (a : PostgreSQLAdapter)
    (config : gmap string setting) : PostgreSQLAdapter :=
  (Connect env a config).1.1.

Definition handleEvents (env : sqlEnv) (a : PostgreSQLAdapter)
    (config : gmap string setting) : list poolEvent :=
  (Connect env a config).1.2.

Definition connectError (env : sqlEnv) (a : PostgreSQLAdapter)
    (config : gmap string setting) : option error :=
  (Connect env a config).2.

End WithFloats.

Arguments SInt {float64} n.
Arguments SFloat {float64} f.
Arguments SString {float64} s.
Arguments SOther {float64}.

End Config.

(** ** What a run is expected to give *)

Module Runs.

Import Adapter.

(** The result maps for the rows of a cursor; the slice stays nil when
    there is no row. *)
Definition gatherRows (columns : list string) (rows : list (list value))
    : option (list (gmap string value)) :=
  match rows with
  | [] => None
  | _ => Some (buildResult columns <$> rows)
  end.

(** How [Update] and [Delete] read the reply to one statement. *)
Definition verdict (what : string) (reply : exec_reply) : option error :=
  match reply with
  | ExecFails err =>
      Some (ErrorfW ("postgresql: " +:+ what +:+ " failed: ") err)
  | ExecDone (inl err) =>
      Some (ErrorfW "postgresql: failed to get rows affected: " err)
  | ExecDone (inr n) =>
      if bool_decide (n = 0%Z) then Some ErrNotFound else None
  end.

(** Running a second batch after a first one that returned no error. *)
Definition andThen {A} (first : outcome (option A))
    (second : world → outcome (option A)) : outcome (option A) :=
  match first with
  | Returns None w' => second w'
  | o => o
  end.

End Runs.

(** ** More small databases *)

Module Samples.

Import Adapter.

(** Every query returns two rows of [users]. *)
Definition usersDriver : sqlDB :=
  {| onQuery := λ _,
       Cursor ["id"; "name"]
         [inr [VInt 1; VString "Ann"]; inr [VInt 2; VString "Bob"]] None;
     onExec := λ _, ExecFails (DriverError "none");
     onQueryRow := λ _, RowFails (DriverError "none") |}.

Definition usersAdapter : PostgreSQLAdapter :=
  {| db := Some usersDriver; dsn := ""; maxConn := 10; maxIdle := 5;
     connMaxAge := 3600 |}.

Definition usersBelow : Operation :=
  {| Statement := "SELECT id, name FROM users WHERE id < {max}";
     Properties := []; Generated := []; Multi := true |}.

(** Every query loses the connection before the first row. *)
Definition lostDriver : sqlDB :=
  {| onQuery := λ _, Cursor ["n"] [] (Some (DriverError "connection lost"));
     onExec := λ _, ExecFails (DriverError "none");
     onQueryRow := λ _, RowFails (DriverError "none") |}.

Definition lostAdapter : PostgreSQLAdapter :=
  {| db := Some lostDriver; dsn := ""; maxConn := 10; maxIdle := 5;
     connMaxAge := 3600 |}.

Definition countUsers : Actions.Action :=
  {| Actions.Statement := "SELECT COUNT(*) AS n FROM users" |}.

Definition byId : Operation :=
  {| Statement := "SELECT * FROM t WHERE id = {id}"; Properties := [];
     Generated := []; Multi := false |}.

(** Finite floats as the fractions they are, converted to an integer by
    dropping the fraction. *)
Definition fraction : Type := Z * positive.

Definition truncate (f : fraction) : Z := Z.quot f.1 (Zpos f.2).

(** A server that can be opened and answers the ping. *)
Definition reachable : Config.sqlEnv :=
  {| Config.sqlOpen := λ _, inr Demo.driver;
     Config.pingContext := λ _, None |}.

End Samples.

(** * Properties *)

(** ** Strings *)

Section StringFacts.

Lemma append_cons (ch : ascii) (a b : string) :
  String ch a +:+ b = String ch (a +:+ b).
Proof. reflexivity. Qed.

Lemma append_nil_l (s : string) : "" +:+ s = s.
Proof. reflexivity. Qed.

Lemma append_assoc (a b c : string) : (a +:+ b) +:+ c = a +:+ (b +:+ c).
Proof.
  induction a as [|ch a IH]; [done|].
  by rewrite !append_cons, IH.
Qed.

Lemma append_nil_r (s : string) : s +:+ "" = s.
Proof.
  induction s as [|ch s IH]; [done|].
  by rewrite append_cons, IH.
Qed.

Lemma occurs_app (c : ascii) (a b : string) :
  occurs c (a +:+ b) = occurs c a + occurs c b.
Proof.
  induction a as [|ch a IH]; [done|].
  rewrite append_cons. simpl. rewrite IH. lia.
Qed.

Lemma occurs_cons_0 (c ch : ascii) (s : string) :
  occurs c (String ch s) = 0 ↔ ch ≠ c ∧ occurs c s = 0.
Proof.
  simpl. case_bool_decide; split; try lia; intros []; try done; lia.
Qed.

Lemma pretty_N_go_occurs (c : ascii) (x : N) (s : string) :
  (∀ k, pretty_N_char k ≠ c) →
  occurs c (pretty_N_go x s) = occurs c s.
Proof.
  intros Hc. revert s.
  induction (N.lt_wf_0 x) as [x _ IH]; intros s.
  destruct (decide (x = 0)%N) as [->|Hx]; [by rewrite pretty_N_go_0|].
  rewrite pretty_N_go_step by lia.
  rewrite IH by (apply N.div_lt; lia).
  simpl. case_bool_decide as Heq; [by destruct (Hc _ Heq) | done].
Qed.


End StringFacts.

(** ** The two scanning loops *)

Section TranslatorFacts.

Lemma scan_cons (ch : ascii) (q : string) (st : scan_state) :
  scan (String ch q) st = scan q (scan_step st ch).
Proof. reflexivity. Qed.

Lemma repl_cons (ch : ascii) (q : string) (st : repl_state) :
  repl (String ch q) st = repl q (repl_step st ch).
Proof. reflexivity. Qed.

Lemma scan_app (a b : string) (st : scan_state) :
  scan (a +:+ b) st = scan b (scan a st).
Proof.
  revert st. induction a as [|ch a IH]; intros st; [done|].
  rewrite append_cons, !scan_cons. apply IH.
Qed.

Lemma repl_app (a b : string) (st : repl_state) :
  repl (a +:+ b) st = repl b (repl a st).
Proof.
  revert st. induction a as [|ch a IH]; intros st; [done|].
  rewrite append_cons, !repl_cons. apply IH.
Qed.

(** Outside a placeholder, text without an opening brace leaves the scan
    where it is. *)
Lemma scan_text (l : string) (st : scan_state) :
  occurs "{" l = 0 → inBrace st = false → scan l st = st.
Proof.
  revert st. induction l as [|ch l IH]; intros st Hl Hb; [done|].
  apply occurs_cons_0 in Hl as [Hch Hl]. rewrite scan_cons.
  assert (scan_step st ch = st) as ->; [|by apply IH].
  unfold scan_step. rewrite bool_decide_eq_false_2 by done.
  by rewrite Hb, andb_false_r.
Qed.

(** Inside a placeholder, text without braces is added to the name. *)
Lemma scan_name (n : string) (st : scan_state) :
  occurs "{" n = 0 → occurs "}" n = 0 → inBrace st = true →
  scan n st = {| inBrace := true; paramName := paramName st +:+ n;
                 paramNames := paramNames st |}.
Proof.
  revert st. induction n as [|ch n IH]; intros st Ho Hc Hb.
  - destruct st; simpl in *; subst. by rewrite append_nil_r.
  - apply occurs_cons_0 in Ho as [Hch1 Ho].
    apply occurs_cons_0 in Hc as [Hch2 Hc].
    rewrite scan_cons.
    assert (scan_step st ch = {| inBrace := true;
              paramName := paramName st +:+ String ch "";
              paramNames := paramNames st |}) as ->.
    { unfold scan_step. rewrite !bool_decide_eq_false_2 by done.
      by rewrite Hb. }
    rewrite IH by done. simpl. by rewrite append_assoc.
Qed.

Lemma repl_text (l : string) (st : repl_state) :
  occurs "{" l = 0 → rInBrace st = false →
  repl l st = {| result := result st +:+ l; rInBrace := false;
                 paramIndex := paramIndex st |}.
Proof.
  revert st. induction l as [|ch l IH]; intros st Hl Hb.
  - destruct st; simpl in *; subst. by rewrite append_nil_r.
  - apply occurs_cons_0 in Hl as [Hch Hl]. rewrite repl_cons.
    assert (repl_step st ch = {| result := result st +:+ String ch "";
              rInBrace := false; paramIndex := paramIndex st |}) as ->.
    { unfold repl_step. rewrite bool_decide_eq_false_2 by done.
      by rewrite Hb, andb_false_r. }
    rewrite IH by done. simpl. by rewrite append_assoc.
Qed.

Lemma repl_name (n : string) (st : repl_state) :
  occurs "{" n = 0 → occurs "}" n = 0 → rInBrace st = true →
  repl n st = st.
Proof.
  revert st. induction n as [|ch n IH]; intros st Ho Hc Hb; [done|].
  apply occurs_cons_0 in Ho as [Hch1 Ho].
  apply occurs_cons_0 in Hc as [Hch2 Hc].
  rewrite repl_cons.
  assert (repl_step st ch = st) as ->; [|by apply IH].
  unfold repl_step. rewrite !bool_decide_eq_false_2 by done.
  by rewrite Hb.
Qed.

(** The number of markers emitted is the number of opening braces read. *)
Lemma repl_paramIndex (q : string) (st : repl_state) :
  paramIndex (repl q st) = paramIndex st + occurs "{" q.
Proof.
  revert st. induction q as [|ch q IH]; intros st; [simpl; lia|].
  rewrite repl_cons, IH. simpl. unfold repl_step.
  case_bool_decide; [simpl; lia|].
  destruct (bool_decide (ch = "}"%char) && rInBrace st); [simpl; lia|].
  destruct (negb (rInBrace st)); simpl; lia.
Qed.

Lemma markerCount_occurs (q : string) : markerCount q = occurs "{" q.
Proof. unfold markerCount. rewrite repl_paramIndex. simpl. lia. Qed.

(** The names collected never outnumber the opening braces. *)
Lemma scan_names_bound (q : string) (st : scan_state) :
  length (paramNames (scan q st)) + (if inBrace (scan q st) then 1 else 0)
  <= length (paramNames st) + (if inBrace st then 1 else 0) + occurs "{" q.
Proof.
  revert st. induction q as [|ch q IH]; intros st; [simpl; lia|].
  rewrite scan_cons. etrans; [apply IH|].
  change (occurs "{" (String ch q))
    with ((if bool_decide (ch = "{"%char) then 1 else 0) + occurs "{" q).
  unfold scan_step. destruct st as [b name names]. simpl.
  destruct (bool_decide (ch = "{"%char)), (bool_decide (ch = "}"%char)), b;
    simpl; rewrite ?length_app; simpl; lia.
Qed.

End TranslatorFacts.

(** ** Well-formed templates *)

Section TemplateFacts.

Lemma open_cons (s : string) : "{" +:+ s = String "{" s.
Proof. reflexivity. Qed.

Lemma close_cons (s : string) : "}" +:+ s = String "}" s.
Proof. reflexivity. Qed.

Lemma scan_template (segs : list segment) (st : scan_state) :
  Forall clean_segment segs → inBrace st = false →
  inBrace (scan (template_of segs) st) = false ∧
  paramNames (scan (template_of segs) st) = paramNames st ++ segs.*1.
Proof.
  intros Hsegs. revert st.
  induction Hsegs as [|[name text] segs (Hn1 & Hn2 & Ht) _ IH]; intros st Hb.
  - simpl. by rewrite app_nil_r.
  - simpl in Hn1, Hn2, Ht.
    cbn [template_of fst snd fmap list_fmap].
    rewrite open_cons, scan_cons, scan_app, close_cons, scan_cons, scan_app.
    rewrite (scan_name name) by done.
    rewrite (scan_text text) by done.
    match goal with |- context [scan (template_of segs) ?s] =>
      destruct (IH s) as [-> ->]; [done|] end.
    split; [done|]. simpl. by rewrite <-app_assoc.
Qed.


(** A well-formed template is a leading text followed by clean segments. *)
Lemma wellBraced_parse (t : string) :
  (wellBracedFrom false t = true →
   ∃ text0 segs, t = text0 +:+ template_of segs ∧ occurs "{" text0 = 0 ∧
     Forall clean_segment segs) ∧
  (wellBracedFrom true t = true →
   ∃ name text segs, t = name +:+ "}" +:+ text +:+ template_of segs ∧
     clean_segment (name, text) ∧ Forall clean_segment segs).
Proof.
  induction t as [|ch t [IHf IHt]]; [split; [|done]|split].
  - intros _. by exists "", [].
  - intros H. simpl in H. case_bool_decide as Ho.
    + subst ch. simpl in H.
      destruct (IHt H) as (name & text & segs & -> & Hc & Hsegs).
      exists "", ((name, text) :: segs). split_and!; [done|done|].
      by constructor.
    + rewrite andb_false_r in H.
      destruct (IHf H) as (text0 & segs & -> & H0 & Hsegs).
      exists (String ch text0), segs. split_and!; [done| |done].
      by apply occurs_cons_0.
  - intros H. simpl in H. case_bool_decide as Ho; [done|].
    case_bool_decide as Hc; simpl in H.
    + subst ch.
      destruct (IHf H) as (text0 & segs & -> & H0 & Hsegs).
      exists "", text0, segs. split_and!; [done| |done].
      by split_and!.
    + destruct (IHt H) as (name & text & segs & -> & (Hn1 & Hn2 & Ht) & Hsegs).
      exists (String ch name), text, segs. split_and!; [done| |done].
      simpl in *. split_and!; [by apply occurs_cons_0..|done].
Qed.

(** An opening brace that is never closed: the scan keeps the names it had. *)
Lemma scan_unterminated (pre rest : string) (st : scan_state) :
  occurs "{" rest = 0 → occurs "}" rest = 0 →
  paramNames (scan (pre +:+ "{" +:+ rest) st) = paramNames (scan pre st).
Proof.
  intros Ho Hc. rewrite scan_app, open_cons, scan_cons.
  by rewrite scan_name.
Qed.

Lemma repl_unterminated (pre rest : string) (st : repl_state) :
  occurs "{" rest = 0 → occurs "}" rest = 0 →
  repl (pre +:+ "{" +:+ rest) st =
    {| result := result (repl pre st) +:+ marker (paramIndex (repl pre st));
       rInBrace := true; paramIndex := paramIndex (repl pre st) + 1 |}.
Proof.
  intros Ho Hc. rewrite repl_app, open_cons, repl_cons.
  by rewrite repl_name.
Qed.

(** Outside a placeholder the names found in the rest of the template do not
    depend on the name read last. *)
Lemma scan_paramNames_from (q : string) (st : scan_state) :
  inBrace st = false →
  paramNames (scan q st) = paramNames st ++ placeholderNames q.
Proof.
  unfold placeholderNames.
  enough (∀ st1 st2, inBrace st1 = inBrace st2 →
    (inBrace st1 = true → paramName st1 = paramName st2) →
    inBrace (scan q st1) = inBrace (scan q st2) ∧
    (inBrace (scan q st1) = true →
       paramName (scan q st1) = paramName (scan q st2)) ∧
    ∃ new, paramNames (scan q st1) = paramNames st1 ++ new ∧
           paramNames (scan q st2) = paramNames st2 ++ new) as Hgen.
  { intros Hb. destruct (Hgen st scan_init) as (_ & _ & new & -> & ->).
    - by rewrite Hb.
    - by rewrite Hb.
    - done. }
  induction q as [|ch q IH]; intros st1 st2 Hb Hn.
  - simpl. split_and!; [done..|]. exists []. by rewrite !app_nil_r.
  - rewrite !scan_cons.
    destruct st1 as [b1 n1 ns1], st2 as [b2 n2 ns2]. simpl in Hb, Hn.
    subst b2. unfold scan_step. simpl.
    destruct (bool_decide (ch = "{"%char)).
    { apply (IH (ScanState true "" ns1) (ScanState true "" ns2)); done. }
    destruct (bool_decide (ch = "}"%char)), b1; simpl.
    + rewrite Hn by done.
      destruct (IH (ScanState false n2 (ns1 ++ [n2]))
                   (ScanState false n2 (ns2 ++ [n2])))
        as (H1 & H2 & new & E1 & E2); [done..|].
      split_and!; [done..|]. exists (n2 :: new).
      simpl in E1, E2. by rewrite E1, E2, <-!app_assoc.
    + apply (IH (ScanState false n1 ns1) (ScanState false n2 ns2)); done.
    + rewrite Hn by done.
      apply (IH (ScanState true _ ns1) (ScanState true _ ns2)); done.
    + apply (IH (ScanState false n1 ns1) (ScanState false n2 ns2)); done.
Qed.

(** A closed placeholder adds its name between the names found before it
    and those found after it. *)
Lemma placeholderNames_closed (pre name post : string) :
  occurs "{" name = 0 → occurs "}" name = 0 →
  placeholderNames (pre +:+ "{" +:+ name +:+ "}" +:+ post)
  = placeholderNames pre ++ name :: placeholderNames post.
Proof.
  intros Ho Hc. unfold placeholderNames at 1.
  rewrite scan_app, open_cons, scan_cons, scan_app, close_cons, scan_cons.
  rewrite (scan_name name) by done.
  rewrite scan_paramNames_from by done. simpl.
  by rewrite <-app_assoc.
Qed.

End TemplateFacts.

(** ** Looking the names up *)

Section LookupFacts.

Lemma lookupAll_cases (p : gmap string value) (names : list string)
    (acc : list value) :
  (∃ vals, lookupAll p names acc = (Some (acc ++ vals), None) ∧
     Forall2 (λ n v, p !! n = Some v) names vals) ∨
  (∃ before name after, names = before ++ name :: after ∧
     Forall (λ n, is_Some (p !! n)) before ∧ p !! name = None ∧
     lookupAll p names acc = (None, Some (missingParameter name))).
Proof.
  revert acc. induction names as [|name names IH]; intros acc.
  - left. exists []. by rewrite app_nil_r.
  - simpl. destruct (p !! name) as [val|] eqn:Hname.
    + destruct (IH (acc ++ [val])) as
        [(vals & -> & Hvals)|(before & missing & after & -> & Hb & Hm & ->)].
      * left. exists (val :: vals). rewrite <-app_assoc. by split; [|constructor].
      * right. exists (name :: before), missing, after.
        split_and!; [done| |done..]. constructor; [by rewrite Hname|done].
    + right. by exists [], name, names.
Qed.

Lemma lookupAll_covered (p : gmap string value) (names : list string) :
  (∀ name, name ∈ names → is_Some (p !! name)) →
  ∃ args, lookupAll p names [] = (Some args, None) ∧
    Forall2 (λ n v, p !! n = Some v) names args.
Proof.
  intros Hcov.
  destruct (lookupAll_cases p names [])
    as [(vals & E & Hvals)|(before & name & after & -> & _ & Hm & _)].
  - by exists vals.
  - destruct (Hcov name) as [v Hv]; [set_solver|congruence].
Qed.


Lemma extractArgs_length (t : string) (p : gmap string value)
    (args : list value) :
  extractArgs t p = (Some args, None) →
  length args = length (placeholderNames t).
Proof.
  unfold extractArgs.
  destruct (lookupAll_cases p (placeholderNames t) [])
    as [(vals & -> & Hvals)|(before & name & after & _ & _ & _ & ->)];
    [|done].
  intros [= <-]. symmetry. by eapply Forall2_length.
Qed.

Lemma extractArgs_unterminated (pre rest : string) (p : gmap string value) :
  occurs "{" rest = 0 → occurs "}" rest = 0 →
  placeholderNames (pre +:+ "{" +:+ rest) = placeholderNames pre ∧
  extractArgs (pre +:+ "{" +:+ rest) p = extractArgs pre p.
Proof.
  intros Ho Hc.
  assert (placeholderNames (pre +:+ "{" +:+ rest) = placeholderNames pre)
    as Hnames by by apply scan_unterminated.
  unfold extractArgs. by rewrite Hnames.
Qed.

End LookupFacts.

(** ** The claims about the translator *)




(** C2: for the template [{a}{b}{a}] and the map [{a:1, b:2}],
    [extractArgs] returns [[1, 2, 1]], one entry per occurrence, and
    [replaceNamedParams] returns [$1$2$3], a new marker per occurrence. *)
Theorem repeated_names_not_coalesced :
  extractArgs "{a}{b}{a}" (<["a" := VInt 1]> (<["b" := VInt 2]> ∅))
    = (Some [VInt 1; VInt 2; VInt 1], None) ∧
  replaceNamedParams "{a}{b}{a}" = "$1$2$3".
Proof. split; vm_compute; reflexivity. Qed.




(** C5: when the last opening brace of a template is followed by no closing
    brace, [extractArgs] collects no name for it and raises no error for it:
    the result is that of the text before this brace, whatever the parameter
    map holds. *)
Theorem unterminated_absorbed (pre rest : string) (p : gmap string value) :
  occurs "{" rest = 0 → occurs "}" rest = 0 →
  placeholderNames (pre +:+ "{" +:+ rest) = placeholderNames pre ∧
  extractArgs (pre +:+ "{" +:+ rest) p = extractArgs pre p ∧
  (covers p pre →
     ∃ args, extractArgs (pre +:+ "{" +:+ rest) p = (Some args, None) ∧
       length args = length (placeholderNames pre)).
Proof.
  intros Ho Hc.
  destruct (extractArgs_unterminated pre rest p Ho Hc) as [Hnames Hargs].
  split_and!; [done..|]. rewrite Hargs.
  intros Hcov. destruct (lookupAll_covered p _ Hcov) as (args & Hok & Hvals).
  exists args. split; [done|]. symmetry. by eapply Forall2_length.
Qed.

Lemma unterminated_absorbed_witness :
  occurs "{" "id" = 0 ∧ occurs "}" "id" = 0 ∧
  placeholderNames ("a = {a} AND id = " +:+ "{" +:+ "id")
    = placeholderNames "a = {a} AND id = " ∧
  extractArgs ("a = {a} AND id = " +:+ "{" +:+ "id") (<["a" := VInt 1]> ∅)
    = extractArgs "a = {a} AND id = " (<["a" := VInt 1]> ∅) ∧
  (covers (<["a" := VInt 1]> ∅) "a = {a} AND id = " →
     ∃ args,
       extractArgs ("a = {a} AND id = " +:+ "{" +:+ "id")
         (<["a" := VInt 1]> ∅) = (Some args, None) ∧
       length args = length (placeholderNames "a = {a} AND id = ")).
Proof.
  split; [reflexivity|]. split; [reflexivity|].
  apply (unterminated_absorbed "a = {a} AND id = " "id"); reflexivity.
Defined.

(** C10 (as amended): when an opening brace is followed by no further brace
    up to the end of the template, [replaceNamedParams] still emits the next
    marker for it and drops all characters after it, while [extractArgs]
    returns what it returns for the text before the brace.  The statement
    thus has at least one marker more than [extractArgs] returns values,
    and exactly one more when the text before the brace is well-formed. *)
Theorem unterminated_still_numbered (pre rest : string)
    (p : gmap string value) :
  occurs "{" rest = 0 → occurs "}" rest = 0 →
  replaceNamedParams (pre +:+ "{" +:+ rest)
    = replaceNamedParams pre +:+ marker (markerCount pre + 1) ∧
  markerCount (pre +:+ "{" +:+ rest) = markerCount pre + 1 ∧
  extractArgs (pre +:+ "{" +:+ rest) p = extractArgs pre p ∧
  (∀ args, extractArgs (pre +:+ "{" +:+ rest) p = (Some args, None) →
     length args + 1 <= markerCount (pre +:+ "{" +:+ rest) ∧
     (wellBraced pre = true →
        markerCount (pre +:+ "{" +:+ rest) = length args + 1)).
Proof.
  intros Ho Hc.
  assert (paramIndex (repl pre repl_init) = markerCount pre + 1) as Hidx.
  { unfold markerCount. rewrite repl_paramIndex. simpl. lia. }
  assert (markerCount (pre +:+ "{" +:+ rest) = markerCount pre + 1) as Hcount.
  { rewrite !markerCount_occurs, !occurs_app, Ho. simpl. lia. }
  destruct (extractArgs_unterminated pre rest p Ho Hc) as [Hnames Hargs].
  split_and!; [|done..|].
  - unfold replaceNamedParams. rewrite repl_unterminated by done.
    simpl. by rewrite Hidx.
  - intros args Hsome. rewrite Hargs in Hsome. rewrite Hcount.
    pose proof (extractArgs_length _ _ _ Hsome) as Hlen.
    split.
    + pose proof (scan_names_bound pre scan_init) as Hb. simpl in Hb.
      unfold placeholderNames in Hlen. rewrite markerCount_occurs. lia.
    + intros Hwb.
      destruct (proj1 (wellBraced_parse pre) Hwb)
        as (text0 & segs & -> & H0 & Hsegs).
      rewrite Hlen, markerCount_occurs. unfold placeholderNames.
      rewrite scan_app, (scan_text text0) by done.
      destruct (scan_template segs scan_init Hsegs eq_refl) as [_ ->].
      rewrite occurs_app, H0. simpl. rewrite length_fmap.
      clear -Hsegs. induction Hsegs as [|[name text] segs (Hn & _ & Ht) _ IH];
        [done|].
      cbn [template_of fst snd length]. simpl in Hn, Ht.
      rewrite !occurs_app, Hn, Ht. simpl. lia.
Qed.

Lemma unterminated_still_numbered_witness :
  occurs "{" "b" = 0 ∧ occurs "}" "b" = 0 ∧
  replaceNamedParams ("x = {a}, y = " +:+ "{" +:+ "b")
    = replaceNamedParams "x = {a}, y = " +:+ marker (markerCount "x = {a}, y = " + 1) ∧
  markerCount ("x = {a}, y = " +:+ "{" +:+ "b") = markerCount "x = {a}, y = " + 1 ∧
  extractArgs ("x = {a}, y = " +:+ "{" +:+ "b") (<["a" := VInt 1]> ∅)
    = extractArgs "x = {a}, y = " (<["a" := VInt 1]> ∅) ∧
  (∀ args,
     extractArgs ("x = {a}, y = " +:+ "{" +:+ "b") (<["a" := VInt 1]> ∅)
       = (Some args, None) →
     length args + 1 <= markerCount ("x = {a}, y = " +:+ "{" +:+ "b") ∧
     (wellBraced "x = {a}, y = " = true →
        markerCount ("x = {a}, y = " +:+ "{" +:+ "b") = length args + 1)).
Proof.
  split; [reflexivity|]. split; [reflexivity|].
  apply (unterminated_still_numbered "x = {a}, y = " "b"); reflexivity.
Defined.

(** C10, counterexample: in [{a{b] the last opening brace is followed by no
    closing brace, yet the translation [$1$2] has two markers more than the
    empty vector that [extractArgs] returns, not one. *)
Lemma nested_unterminated_two_more :
  "{a{b" = "{a" +:+ "{" +:+ "b" ∧ occurs "{" "b" = 0 ∧ occurs "}" "b" = 0 ∧
  replaceNamedParams "{a{b" = "$1$2" ∧
  ∃ args, extractArgs "{a{b" ∅ = (Some args, None) ∧
    markerCount "{a{b" ≠ length args + 1 ∧
    occurs "$" (replaceNamedParams "{a{b") ≠ length args + 1.
Proof.
  split_and!; [reflexivity..|vm_compute; reflexivity|].
  exists []. split_and!; [vm_compute; reflexivity|vm_compute; lia..].
Qed.

(** ** The adapter methods *)

Import Adapter InsertShape Signals.

Section LoopFacts.

Context (d : sqlDB).



Lemma updateLoop_stepwise (query : string) :
  stepwise d (updateLoop d query)
    (λ x, obj ← assertMap x; readContents obj) "update" query.
Proof.
  split; [done|]. intros x rest. simpl.
  unfold mbind, M_bind, bind. by destruct x.
Qed.

Lemma update_params_readOnly :
  readOnly (λ x, obj ← assertMap x; readContents obj).
Proof.
  intros x w. unfold mbind, M_bind, bind.
  destruct x; simpl; eauto.
Qed.

Lemma deleteLoop_stepwise (query : string) :
  stepwise d (deleteLoop d query) idParams "delete" query.
Proof. by split. Qed.

Lemma idParams_readOnly : readOnly idParams.
Proof. intros x w. left. destruct x; simpl; eauto. Qed.

End LoopFacts.

Section FetchFacts.




End FetchFacts.

(** ** The claims about the adapter methods *)

(** C8 (as amended): [Insert] with an empty batch issues no statement and
    leaves the store alone; it returns no error on a connected adapter, and
    the not-connected error on an adapter without a connection, whatever
    the column and generated mappings of the operation are. *)
Theorem insert_empty_batch (a : PostgreSQLAdapter) (op : Operation)
    (w : world) :
  Insert a op [] w =
    Returns (match db a with
             | Some _ => None
             | None => Some notConnected
             end) w.
Proof. unfold Insert. by destruct (db a). Qed.

(** C8, counterexample: on the adapter as [NewPostgreSQLAdapter] makes it,
    not yet connected, [Insert] with an empty batch returns an error. *)
Lemma insert_empty_batch_not_connected :
  Insert NewPostgreSQLAdapter
    {| Statement := "users"; Properties := []; Generated := []; Multi := false |}
    [] {| heap := ∅; calls := [] |}
  = Returns (Some (Errorf "postgresql: not connected"))
      {| heap := ∅; calls := [] |}.
Proof. reflexivity. Qed.


Section BulkFacts.

Lemma bulkPlaceholders_spec (h : store) (obj : mapref) (props : list Property)
    (placeholders : list string) (k : nat) (allValues : list value) :
  bulkPlaceholders h obj props placeholders k allValues =
    (placeholders ++ (marker <$> seq k (length props)), k + length props,
     allValues ++ rowValues h obj props).
Proof.
  revert placeholders k allValues.
  induction props as [|prop props IH]; intros placeholders k allValues.
  - simpl. rewrite !app_nil_r. do 2 f_equal. lia.
  - simpl. rewrite IH, <-!app_assoc. simpl.
    replace (k + 1) with (S k) by lia. do 2 f_equal. lia.
Qed.

Lemma tuples_shift (k n m : nat) :
  (λ i, tuple (k + i * n) n) <$> seq 1 m
  = (λ i, tuple (k + n + i * n) n) <$> seq 0 m.
Proof.
  rewrite <-(fmap_S_seq 0 m), <-list_fmap_compose.
  apply list_fmap_ext. intros _ i _. simpl. f_equal. lia.
Qed.

Lemma bulkLoop_spec (props : list Property) (objs : list mapref)
    (valueRows : list string) (k : nat) (allValues : list value) (w : world) :
  bulkLoop props (VMap <$> objs) valueRows k allValues w =
    Returns
      (valueRows ++
         ((λ i, tuple (k + i * length props) (length props))
            <$> seq 0 (length objs)),
       allValues ++ concat ((λ obj, rowValues (heap w) obj props) <$> objs))
      w.
Proof.
  revert valueRows k allValues.
  induction objs as [|obj objs IH]; intros valueRows k allValues.
  - simpl. by rewrite !app_nil_r.
  - cbn [fmap list_fmap bulkLoop assertMap length concat].
    unfold mbind, M_bind, bind. simpl.
    rewrite bulkPlaceholders_spec. simpl. rewrite IH.
    rewrite tuples_shift, <-!app_assoc. simpl.
    by rewrite Nat.add_0_r.
Qed.

(** Numbering the tuples row by row is numbering all placeholders from 1. *)
Lemma tuples_continuous (n rows : nat) :
  concat ((λ i, marker <$> seq (i * n + 1) n) <$> seq 0 rows)
  = marker <$> seq 1 (rows * n).
Proof.
  induction rows as [|rows IH]; [done|].
  rewrite seq_S, fmap_app, concat_app, IH. simpl. rewrite app_nil_r.
  rewrite <-fmap_app. f_equal.
  replace (rows * n + 1) with (1 + rows * n) by lia.
  rewrite <-seq_app. f_equal. lia.
Qed.

(** The value of column [j] of row [i] is argument number [i * n + j]. *)
Lemma bulkArgs_lookup (h : store) (op : Operation) (objs : list mapref)
    (i j : nat) (obj : mapref) (prop : Property) :
  objs !! i = Some obj → Properties op !! j = Some prop →
  bulkArgs h op objs !! (i * length (Properties op) + j)
  = Some (mapIndex h obj (ObjectField prop)).
Proof.
  unfold bulkArgs. revert i.
  induction objs as [|o objs IH]; intros i Hi Hj; [done|].
  cbn [fmap list_fmap concat]. destruct i as [|i]; simpl in Hi.
  - injection Hi as ->. simpl. rewrite lookup_app_l.
    + unfold rowValues. by rewrite list_lookup_fmap, Hj.
    + unfold rowValues. rewrite length_fmap. by eapply lookup_lt_Some.
  - assert (length (rowValues h o (Properties op))
            = length (Properties op)) as Hlen
      by (unfold rowValues; by rewrite length_fmap).
    rewrite lookup_app_r; rewrite Hlen; [|lia].
    replace (S i * length (Properties op) + j - length (Properties op))
      with (i * length (Properties op) + j) by lia.
    by apply IH.
Qed.

Lemma bulkArgs_length (h : store) (op : Operation) (objs : list mapref) :
  length (bulkArgs h op objs) = length objs * length (Properties op).
Proof.
  unfold bulkArgs. induction objs as [|o objs IH]; [done|].
  cbn [fmap list_fmap concat length]. rewrite length_app, IH.
  unfold rowValues. rewrite length_fmap. lia.
Qed.

End BulkFacts.

(** C6: on a connected adapter, for an operation without generated columns
    and a non-empty batch of row objects, [Insert] issues exactly one
    statement, [INSERT INTO <table> (<cols>) VALUES (<row1>), (<row2>), ...]
    with the columns in mapping order and the tuple of row [i] holding the
    markers [$(i*n+1)] to [$(i*n+n)], so that the markers of the whole batch
    are [$1], [$2], ... without a restart; its arguments are the values of
    the rows one after the other, the value of column [j] of row [i] being
    argument [i*n+j]. *)
Theorem bulk_insert_one_statement (a : PostgreSQLAdapter) (d : sqlDB)
    (op : Operation) (objs : list mapref) (w : world) :
  db a = Some d → Generated op = [] → objs ≠ [] →
  Insert a op (VMap <$> objs) w =
    Returns
      (match onExec d (length (calls w)) with
       | ExecFails err => Some (ErrorfW "postgresql: bulk insert failed: " err)
       | ExecDone _ => None
       end)
      {| heap := heap w;
         calls := calls w ++
           [ExecCall (bulkStatement op (length objs))
                     (bulkArgs (heap w) op objs)] |} ∧
  concat ((λ i, marker <$> seq (i * length (Properties op) + 1)
                              (length (Properties op)))
            <$> seq 0 (length objs))
    = marker <$> seq 1 (length (bulkArgs (heap w) op objs)) ∧
  (∀ i j obj prop,
     objs !! i = Some obj → Properties op !! j = Some prop →
     bulkArgs (heap w) op objs !! (i * length (Properties op) + j)
     = Some (mapIndex (heap w) obj (ObjectField prop))).
Proof.
  intros Hdb Hgen Hne. split_and!.
  - unfold Insert. rewrite Hdb, Hgen.
    rewrite bool_decide_eq_false_2
      by (rewrite length_fmap; by destruct objs).
    rewrite bool_decide_eq_false_2 by (simpl; lia).
    unfold insertBulk, mbind, M_bind, bind. rewrite bulkLoop_spec.
    unfold execContext. simpl.
    assert ((λ i, tuple (S (i * length (Properties op)))
                    (length (Properties op))) <$> seq 0 (length objs)
      = (λ i, tuple (i * length (Properties op) + 1)
                (length (Properties op))) <$> seq 0 (length objs)) as ->.
    { apply list_fmap_ext. intros _ i _. f_equal. lia. }
    by destruct (onExec d (length (calls w))).
  - rewrite bulkArgs_length. apply tuples_continuous.
  - intros i j obj prop. apply bulkArgs_lookup.
Qed.

Lemma bulk_insert_one_statement_witness :
  db Demo.adapter = Some Demo.driver ∧
  Generated Demo.bulkOp = [] ∧
  [MapAt 1; MapAt 2] ≠ [] ∧
  Insert Demo.adapter Demo.bulkOp [VMap (MapAt 1); VMap (MapAt 2)] Demo.start =
    Returns None
      {| heap := Demo.rows;
         calls := [ExecCall
           "INSERT INTO users (name, email) VALUES ($1, $2), ($3, $4)"
           [VString "Ann"; VString "ann@x"; VString "Bob"; VString "bob@x"]] |}.
Proof.
  split_and!; [reflexivity|reflexivity|discriminate|].
  destruct (bulk_insert_one_statement Demo.adapter Demo.driver Demo.bulkOp
              [MapAt 1; MapAt 2] Demo.start)
    as [Hrun _]; [reflexivity|reflexivity|discriminate|].
  etrans; [exact Hrun|]. vm_compute. reflexivity.
Defined.

Section ReturningFacts.

Lemma rowPlaceholders_seq (props : list Property) :
  rowPlaceholders props = marker <$> seq 1 (length props).
Proof.
  unfold rowPlaceholders.
  enough (∀ k, imap (λ i _, marker (i + k)) props
               = marker <$> seq k (length props)) as H by apply H.
  induction props as [|prop props IH]; intros k; [done|].
  simpl. f_equal. rewrite <-IH. apply imap_ext. intros i x _. simpl.
  f_equal. lia.
Qed.

(** The statement built in the loop is the one announced. *)
Lemma returning_query (op : Operation) :
  "INSERT INTO " +:+ Statement op +:+ " (" +:+
    join ", " (DataField <$> Properties op) +:+ ") VALUES (" +:+
    join ", " (rowPlaceholders (Properties op)) +:+
    ") RETURNING " +:+ join ", " (DataField <$> Generated op)
  = returningStatement op.
Proof.
  unfold returningStatement, columnList, tuple.
  rewrite rowPlaceholders_seq. do 3 f_equal.
  rewrite !append_assoc. reflexivity.
Qed.

(** Writing back into a map that the store holds at [l]. *)
Lemma writeBack_stored (l : loc) (gens : list Property) (vals : list value)
    (m : gmap string value) (h : store) (cs : list call) :
  length vals = length gens →
  writeBack (MapAt l) gens vals {| heap := <[l := m]> h; calls := cs |}
  = Returns tt {| heap := <[l := writeBackMap gens vals m]> h; calls := cs |}.
Proof.
  revert vals m. induction gens as [|gen gens IH]; intros vals m Hlen.
  - by destruct vals.
  - destruct vals as [|val vals]; [done|]. simpl in Hlen.
    cbn [writeBack hd tl]. unfold mbind, M_bind, bind. simpl.
    rewrite lookup_total_insert_eq, insert_insert_eq.
    rewrite IH by lia. done.
Qed.

Lemma writeBack_spec (l : loc) (gens : list Property) (vals : list value)
    (w : world) :
  gens ≠ [] → length vals = length gens →
  writeBack (MapAt l) gens vals w
  = Returns tt {| heap := <[l := writeBackMap gens vals (heap w !!! l)]> (heap w);
                  calls := calls w |}.
Proof.
  intros Hne Hlen. destruct gens as [|gen gens]; [done|].
  destruct vals as [|val vals]; [done|]. simpl in Hlen.
  cbn [writeBack hd tl]. unfold mbind, M_bind, bind. simpl.
  rewrite writeBack_stored by lia. done.
Qed.

Lemma returningLoop_spec (d : sqlDB) (op : Operation) (ls : list loc)
    (w : world) :
  Generated op ≠ [] →
  (∀ i, i < length ls →
     ∃ vals, onQueryRow d (length (calls w) + i) = Row vals ∧
             length vals = length (Generated op)) →
  returningLoop d op (DataField <$> Properties op)
    (DataField <$> Generated op) (VMap ∘ MapAt <$> ls) w
  = Returns None
      {| heap := storeAfter d (Generated op) (length (calls w)) ls (heap w);
         calls := calls w ++
           returningCalls d op (length (calls w)) ls (heap w) |}.
Proof.
  intros Hgen. revert w. induction ls as [|l ls IH]; intros w Hrows.
  - simpl. unfold mret, M_ret, ret. destruct w. simpl. by rewrite app_nil_r.
  - cbn [fmap list_fmap returningLoop compose assertMap].
    unfold mbind, M_bind, bind, queryRowContext. simpl.
    destruct (Hrows 0) as (vals & Hrow & Hlen); [simpl; lia|].
    rewrite Nat.add_0_r in Hrow. rewrite Hrow.
    unfold scanInto. rewrite bool_decide_eq_true_2 by done.
    rewrite writeBack_spec by done. simpl.
    rewrite returning_query.
    match goal with |- returningLoop _ _ _ _ _ ?w1 = _ =>
      specialize (IH w1) end.
    simpl in IH. rewrite length_app in IH. simpl in IH.
    replace (length (calls w) + 1) with (S (length (calls w))) in IH by lia.
    rewrite IH.
    + unfold scriptedRow. rewrite Hrow. by rewrite <-app_assoc.
    + intros i Hi. destruct (Hrows (S i)) as (vals' & Hrow' & Hlen');
        [simpl; lia|].
      exists vals'. split; [|done]. rewrite <-Hrow'. f_equal. lia.
Qed.

(** Rows at distinct locations do not see each other's write-back. *)
Lemma storeAfter_other (d : sqlDB) (gens : list Property) (n : nat)
    (ls : list loc) (h : store) (l : loc) :
  l ∉ ls → storeAfter d gens n ls h !!! l = h !!! l.
Proof.
  revert n h. induction ls as [|l' ls IH]; intros n h Hl; [done|].
  apply not_elem_of_cons in Hl as [Hne Hl]. simpl.
  rewrite IH by done. by rewrite lookup_total_insert_ne.
Qed.

Lemma returning_rows_distinct (d : sqlDB) (op : Operation) (n : nat)
    (ls : list loc) (h : store) (i : nat) (l : loc) :
  NoDup ls → ls !! i = Some l →
  returningCalls d op n ls h !! i
    = Some (QueryRowCall (returningStatement op)
              (rowValues h (MapAt l) (Properties op))) ∧
  storeAfter d (Generated op) n ls h !!! l
    = writeBackMap (Generated op) (scriptedRow d (n + i)) (h !!! l).
Proof.
  intros Hnd. revert n h i.
  induction Hnd as [|l' ls Hl' Hnd IH]; intros n h i Hi; [done|].
  destruct i as [|i]; simpl in Hi.
  - injection Hi as ->. simpl. split; [done|].
    rewrite storeAfter_other by done.
    by rewrite lookup_total_insert_eq, Nat.add_0_r.
  - simpl. destruct (IH (S n)
      (<[l' := writeBackMap (Generated op) (scriptedRow d n) (h !!! l')]> h)
      i Hi) as [Hcall Hstore].
    assert (l' ≠ l) as Hne.
    { intros ->. apply Hl'. by eapply list_elem_of_lookup_2. }
    rewrite Hcall, Hstore. unfold rowValues, mapIndex. simpl.
    rewrite lookup_total_insert_ne by done.
    split; [done|]. f_equal. f_equal. lia.
Qed.

Lemma returningCalls_shape (d : sqlDB) (op : Operation) (n : nat)
    (ls : list loc) (h : store) :
  length (returningCalls d op n ls h) = length ls ∧
  Forall (λ c, ∃ args, c = QueryRowCall (returningStatement op) args ∧
                       length args = length (Properties op))
    (returningCalls d op n ls h).
Proof.
  revert n h. induction ls as [|l ls IH]; intros n h; [by split|].
  simpl. destruct (IH (S n)
    (<[l := writeBackMap (Generated op) (scriptedRow d n) (h !!! l)]> h))
    as [Hlen Hall].
  split; [by rewrite Hlen|]. constructor; [|done].
  eexists. split; [done|]. unfold rowValues. by rewrite length_fmap.
Qed.

(** With distinct object fields, the j-th scanned value is what the j-th
    generated field holds afterwards. *)
Lemma writeBackMap_lookup (gens : list Property) (vals : list value)
    (m : gmap string value) (j : nat) (gen : Property) (val : value) :
  NoDup (ObjectField <$> gens) →
  gens !! j = Some gen → vals !! j = Some val →
  writeBackMap gens vals m !! ObjectField gen = Some val.
Proof.
  unfold writeBackMap. revert vals m j.
  induction gens as [|g gens IH]; intros vals m j Hnd Hg Hv; [done|].
  destruct vals as [|v vals]; [done|].
  cbn [fmap list_fmap] in Hnd. apply NoDup_cons in Hnd as [Hg' Hnd].
  destruct j as [|j]; simpl in Hg, Hv.
  - injection Hg as ->. injection Hv as ->. simpl.
    clear IH Hnd. revert vals m.
    induction gens as [|g gens IH]; intros vals m.
    + simpl. by rewrite lookup_insert_eq.
    + destruct vals as [|v vals]; [simpl; by rewrite lookup_insert_eq|].
      simpl. cbn [fmap list_fmap] in Hg'.
      apply not_elem_of_cons in Hg' as [Hne Hg'].
      rewrite insert_insert_ne by done. by apply IH.
  - simpl. by eapply IH.
Qed.

End ReturningFacts.

(** C7: on a connected adapter, for an operation with generated columns
    and a batch of non-nil row maps whose single-row queries all scan,
    [Insert] issues one statement per row, in order, each
    [INSERT INTO <table> (<cols>) VALUES ($1, ..., $n) RETURNING <generated>]
    with the markers starting at [$1] and the RETURNING columns in the order
    of the generated mappings; after each statement the scanned values are
    written into that row's map, the j-th value under the object field of
    the j-th generated mapping. *)
Theorem returning_insert_row_by_row (a : PostgreSQLAdapter) (d : sqlDB)
    (op : Operation) (ls : list loc) (w : world) :
  db a = Some d → Generated op ≠ [] →
  (∀ i, i < length ls →
     ∃ vals, onQueryRow d (length (calls w) + i) = Row vals ∧
             length vals = length (Generated op)) →
  Insert a op (VMap ∘ MapAt <$> ls) w =
    Returns None
      {| heap := storeAfter d (Generated op) (length (calls w)) ls (heap w);
         calls := calls w ++
           returningCalls d op (length (calls w)) ls (heap w) |} ∧
  length (returningCalls d op (length (calls w)) ls (heap w)) = length ls ∧
  Forall (λ c, ∃ args, c = QueryRowCall (returningStatement op) args ∧
                       length args = length (Properties op))
    (returningCalls d op (length (calls w)) ls (heap w)) ∧
  (NoDup ls → ∀ i l, ls !! i = Some l →
     returningCalls d op (length (calls w)) ls (heap w) !! i
       = Some (QueryRowCall (returningStatement op)
                 (rowValues (heap w) (MapAt l) (Properties op))) ∧
     storeAfter d (Generated op) (length (calls w)) ls (heap w) !!! l
       = writeBackMap (Generated op) (scriptedRow d (length (calls w) + i))
           (heap w !!! l)) ∧
  (NoDup (ObjectField <$> Generated op) →
     ∀ vals m j gen val,
       Generated op !! j = Some gen → vals !! j = Some val →
       writeBackMap (Generated op) vals m !! ObjectField gen = Some val).
Proof.
  intros Hdb Hgen Hrows. split_and!.
  - unfold Insert. rewrite Hdb. case_bool_decide as Hempty.
    + rewrite length_fmap in Hempty. destruct ls; [|done].
      destruct w. simpl. unfold mret, M_ret, ret. by rewrite app_nil_r.
    + rewrite bool_decide_eq_true_2
        by (destruct (Generated op); [done|simpl; lia]).
      by apply returningLoop_spec.
  - apply returningCalls_shape.
  - apply returningCalls_shape.
  - intros Hnd i l Hi. by apply returning_rows_distinct.
  - intros Hnd vals m j gen val. by apply writeBackMap_lookup.
Qed.

Lemma returning_insert_row_by_row_witness :
  db Demo.adapter = Some Demo.driver ∧
  Generated Demo.returningOp ≠ [] ∧
  (∀ i, i < length [1; 2] →
     ∃ vals,
       onQueryRow Demo.driver (length (calls Demo.start) + i) = Row vals ∧
       length vals = length (Generated Demo.returningOp)) ∧
  Insert Demo.adapter Demo.returningOp [VMap (MapAt 1); VMap (MapAt 2)]
    Demo.start =
    Returns None
      {| heap := <[1 := <["ID" := VInt 100]> Demo.ann]>
                   (<[2 := <["ID" := VInt 101]> Demo.bob]> ∅);
         calls := [
           QueryRowCall
             "INSERT INTO users (name, email) VALUES ($1, $2) RETURNING id"
             [VString "Ann"; VString "ann@x"];
           QueryRowCall
             "INSERT INTO users (name, email) VALUES ($1, $2) RETURNING id"
             [VString "Bob"; VString "bob@x"]] |}.
Proof.
  assert (∀ i, i < length [1; 2] →
     ∃ vals,
       onQueryRow Demo.driver (length (calls Demo.start) + i) = Row vals ∧
       length vals = length (Generated Demo.returningOp)) as Hrows.
  { intros i _. by eexists. }
  split_and!; [reflexivity|discriminate|exact Hrows|].
  destruct (returning_insert_row_by_row Demo.adapter Demo.driver
              Demo.returningOp [1; 2] Demo.start)
    as [Hrun _]; [reflexivity|discriminate|exact Hrows|].
  etrans; [exact Hrun|]. vm_compute. reflexivity.
Defined.

(** * Further properties of the code *)

(** ** The translator on arbitrary templates *)

Section MoreTranslatorFacts.

Lemma marker_no_open (k : nat) : occurs "{" (marker k) = 0.
Proof.
  unfold marker. rewrite occurs_app.
  assert (occurs "{" (pretty k) = 0) as ->; [|done].
  unfold pretty, pretty_nat, pretty, pretty_N.
  case_decide; [done|].
  apply (pretty_N_go_occurs "{" _ "").
  intros n. unfold pretty_N_char. by repeat case_match.
Qed.

Lemma repl_no_open (q : string) (st : repl_state) :
  occurs "{" (result (repl q st)) = occurs "{" (result st).
Proof.
  revert st. induction q as [|ch q IH]; intros st; [done|].
  rewrite repl_cons, IH. unfold repl_step.
  case_bool_decide as Ho; simpl.
  - by rewrite occurs_app, marker_no_open, Nat.add_0_r.
  - destruct (bool_decide (ch = "}"%char) && rInBrace st); [done|].
    destruct (negb (rInBrace st)); [|done]. simpl.
    rewrite occurs_app. simpl. rewrite bool_decide_eq_false_2 by done. lia.
Qed.

Lemma lookupAll_agree (p p' : gmap string value) (names : list string)
    (acc : list value) :
  (∀ name, name ∈ names → p !! name = p' !! name) →
  lookupAll p names acc = lookupAll p' names acc.
Proof.
  revert acc. induction names as [|name names IH]; intros acc Hagree; [done|].
  simpl. rewrite <-(Hagree name) by set_solver.
  destruct (p !! name); [|done]. apply IH. intros n Hn. apply Hagree.
  set_solver.
Qed.

End MoreTranslatorFacts.

(** X1: the translated statement never holds an opening brace, whatever the
    template; translating it once more therefore changes nothing and finds
    no placeholder in it. *)
Theorem translation_is_final (t : string) :
  occurs "{" (replaceNamedParams t) = 0 ∧
  replaceNamedParams (replaceNamedParams t) = replaceNamedParams t ∧
  placeholderNames (replaceNamedParams t) = [].
Proof.
  assert (occurs "{" (replaceNamedParams t) = 0) as Hno.
  { unfold replaceNamedParams. by rewrite repl_no_open. }
  split_and!; [done|..].
  - unfold replaceNamedParams at 1. by rewrite repl_text.
  - unfold placeholderNames. by rewrite scan_text.
Qed.

(** X2: [extractArgs] reads the parameter map only at the placeholder names
    of the template: two maps that agree there give the same result, so
    entries under other names are ignored and a larger map keeps a
    successful result. *)
Theorem extractArgs_reads_only_names (t : string)
    (p p' : gmap string value) :
  ((∀ name, name ∈ placeholderNames t → p !! name = p' !! name) →
   extractArgs t p = extractArgs t p') ∧
  (p ⊆ p' → ∀ args, extractArgs t p = (Some args, None) →
   extractArgs t p' = (Some args, None)).
Proof.
  split.
  - intros Hagree. by apply lookupAll_agree.
  - intros Hsub args Hok. rewrite <-Hok. symmetry.
    apply lookupAll_agree. intros name Hin.
    unfold extractArgs in Hok.
    destruct (lookupAll_cases p (placeholderNames t) [])
      as [(vals & _ & Hvals)|(before & missing & after & _ & _ & _ & Herr)];
      [|congruence].
    apply list_elem_of_lookup in Hin as [i Hi].
    destruct (Forall2_lookup_l _ _ _ _ _ Hvals Hi) as (v & _ & Hv).
    rewrite Hv. symmetry. by eapply lookup_weaken.
Qed.



(** X4: an opening brace inside a placeholder starts the name afresh: the
    text read since the earlier brace is dropped by [extractArgs], which
    returns what it returns without that fragment, while
    [replaceNamedParams] has emitted one marker more. *)
Theorem inner_brace_restarts_name (pre junk rest : string)
    (p : gmap string value) :
  occurs "{" junk = 0 → occurs "}" junk = 0 →
  placeholderNames (pre +:+ "{" +:+ junk +:+ "{" +:+ rest)
    = placeholderNames (pre +:+ "{" +:+ rest) ∧
  extractArgs (pre +:+ "{" +:+ junk +:+ "{" +:+ rest) p
    = extractArgs (pre +:+ "{" +:+ rest) p ∧
  markerCount (pre +:+ "{" +:+ junk +:+ "{" +:+ rest)
    = markerCount (pre +:+ "{" +:+ rest) + 1.
Proof.
  intros Ho Hc.
  assert (placeholderNames (pre +:+ "{" +:+ junk +:+ "{" +:+ rest)
          = placeholderNames (pre +:+ "{" +:+ rest)) as Hnames.
  { unfold placeholderNames.
    rewrite (scan_app pre ("{" +:+ junk +:+ "{" +:+ rest)).
    rewrite (scan_app pre ("{" +:+ rest)).
    rewrite (open_cons (junk +:+ "{" +:+ rest)), scan_cons, scan_app.
    rewrite (scan_name junk) by done.
    by rewrite !open_cons, !scan_cons. }
  split_and!; [done| |].
  - unfold extractArgs. by rewrite Hnames.
  - rewrite !markerCount_occurs, !occurs_app, Ho. simpl. lia.
Qed.

Lemma inner_brace_restarts_name_witness :
  occurs "{" "a" = 0 ∧ occurs "}" "a" = 0 ∧
  placeholderNames ("x = " +:+ "{" +:+ "a" +:+ "{" +:+ "b}")
    = placeholderNames ("x = " +:+ "{" +:+ "b}") ∧
  extractArgs ("x = " +:+ "{" +:+ "a" +:+ "{" +:+ "b}") (<["b" := VInt 2]> ∅)
    = extractArgs ("x = " +:+ "{" +:+ "b}") (<["b" := VInt 2]> ∅) ∧
  markerCount ("x = " +:+ "{" +:+ "a" +:+ "{" +:+ "b}")
    = markerCount ("x = " +:+ "{" +:+ "b}") + 1.
Proof.
  split; [reflexivity|]. split; [reflexivity|].
  apply (inner_brace_restarts_name "x = " "a" "b}"); reflexivity.
Defined.

(** ** The methods and the store *)

Import Runs.

Section StoreFacts.

Lemma execOne_run (d : sqlDB) (what query : string)
    (params : gmap string value) (w : world) :
  (∃ missing, missing ∈ placeholderNames query ∧ params !! missing = None ∧
     execOne d what query params w
       = Returns (Some (missingParameter missing)) w) ∨
  (∃ args, extractArgs query params = (Some args, None) ∧
     execOne d what query params w
       = Returns (verdict what (onExec d (length (calls w))))
           {| heap := heap w;
              calls := calls w ++ [ExecCall (replaceNamedParams query) args] |}).
Proof.
  unfold execOne, extractArgs.
  destruct (lookupAll_cases params (placeholderNames query) [])
    as [(vals & -> & _)|(before & name & after & Hn & _ & Hm & ->)].
  - right. exists vals. split; [done|]. simpl.
    unfold mbind, M_bind, bind, execContext, verdict. simpl.
    destruct (onExec d (length (calls w))) as [err|[err|n]]; try done.
    by case_bool_decide.
  - left. exists name. split_and!; [|done..]. rewrite Hn. set_solver.
Qed.

Lemma stepwise_heap (d : sqlDB) loop paramsOf what query
    (xs : list value) (w : world) :
  stepwise d loop paramsOf what query → readOnly paramsOf →
  heap (finalWorld (loop xs w)) = heap w.
Proof.
  intros [Hnil Hcons] Hread. revert w.
  induction xs as [|x xs IH]; intros w; [by rewrite Hnil|].
  rewrite Hcons. unfold mbind, M_bind, bind.
  destruct (Hread x w) as [[params ->]|[msg ->]]; [|done].
  destruct (execOne_run d what query params w)
    as [(missing & _ & _ & ->)|(args & _ & ->)]; [done|].
  destruct (verdict what (onExec d (length (calls w)))); [done|].
  by rewrite IH.
Qed.

Lemma bulkLoop_world (props : list Property) (objects : list value)
    (valueRows : list string) (k : nat) (allValues : list value) (w : world) :
  finalWorld (bulkLoop props objects valueRows k allValues w) = w.
Proof.
  revert valueRows k allValues.
  induction objects as [|x objects IH]; intros valueRows k allValues; [done|].
  simpl. unfold mbind, M_bind, bind.
  destruct x; try done. simpl.
  destruct (bulkPlaceholders (heap w) r props [] k allValues) as [[ps k'] av].
  apply IH.
Qed.

Lemma query_heap (d : sqlDB) (query : string) (args : list value)
    (w : world) {A} (k : query_reply → M A) :
  (∀ reply w', ∃ r, k reply w' = Returns r w') →
  heap (finalWorld ((reply ← queryContext d query args; k reply) w)) = heap w.
Proof.
  intros Hk. unfold mbind, M_bind, bind, queryContext.
  match goal with |- context [k ?r ?w'] => destruct (Hk r w') as [x ->] end.
  done.
Qed.

End StoreFacts.

(** X5: only an insert with generated columns writes to the caller's maps:
    [Fetch], [Execute], [Update], [Delete], and [Insert] for an operation
    without generated columns leave the store as it was, whatever the
    driver answers and whether they return, fail or panic. *)
Theorem store_untouched (a : PostgreSQLAdapter) (op : Operation)
    (action : Actions.Action) (params : gmap string value)
    (objects : list value) (w : world) :
  heap (finalWorld (Fetch a op params w)) = heap w ∧
  heap (finalWorld (Actions.Execute a action params w)) = heap w ∧
  heap (finalWorld (Update a op objects w)) = heap w ∧
  heap (finalWorld (Delete a op objects w)) = heap w ∧
  (Generated op = [] → heap (finalWorld (Insert a op objects w)) = heap w).
Proof.
  split_and!.
  - unfold Fetch. destruct (db a) as [d|]; [|done].
    destruct (extractArgs (Statement op) params) as [args [err|]]; [done|].
    apply query_heap. intros reply w'.
    destruct reply as [err|err|columns rows iterErr]; [by eexists..|].
    destruct (scanRows columns rows None); [by eexists|].
    destruct iterErr; [by eexists|].
    destruct (bool_decide _ && _); by eexists.
  - unfold Actions.Execute. destruct (db a) as [d|]; [|done].
    destruct (extractArgs (Actions.Statement action) params)
      as [args [err|]]; [done|].
    apply query_heap. intros reply w'.
    destruct reply as [err|err|columns rows iterErr]; [by eexists..|].
    destruct (scanRows columns rows None); by eexists.
  - unfold Update. destruct (db a) as [d|]; [|done].
    apply (stepwise_heap d _ _ _ _ objects w
             (updateLoop_stepwise d (Statement op)) update_params_readOnly).
  - unfold Delete. destruct (db a) as [d|]; [|done].
    apply (stepwise_heap d _ _ _ _ objects w
             (deleteLoop_stepwise d (Statement op)) idParams_readOnly).
  - intros Hgen. unfold Insert. destruct (db a) as [d|]; [|done].
    case_bool_decide; [done|]. rewrite Hgen. simpl.
    unfold insertBulk, mbind, M_bind, bind.
    pose proof (bulkLoop_world (Properties op) objects [] 1 [] w) as Hw.
    destruct (bulkLoop (Properties op) objects [] 1 [] w) as [built w'|msg w'];
      simpl in Hw; subst w'; [|done].
    unfold execContext. by destruct (onExec d (length (calls w))).
Qed.

(** X6: without a connection no method reaches the driver: [Fetch],
    [Insert], [Update], [Delete] and [Execute] all return the
    not-connected error and leave statements and store as they were. *)
Theorem not_connected_guard (a : PostgreSQLAdapter) (op : Operation)
    (action : Actions.Action) (params : gmap string value)
    (objects : list value) (w : world) :
  db a = None →
  Fetch a op params w = Returns (None, Some notConnected) w ∧
  Insert a op objects w = Returns (Some notConnected) w ∧
  Update a op objects w = Returns (Some notConnected) w ∧
  Delete a op objects w = Returns (Some notConnected) w ∧
  Actions.Execute a action params w = Returns (None, Some notConnected) w.
Proof.
  intros Hdb. unfold Fetch, Insert, Update, Delete, Actions.Execute.
  by rewrite Hdb.
Qed.

Lemma not_connected_guard_witness :
  db NewPostgreSQLAdapter = None ∧
  Fetch NewPostgreSQLAdapter Demo.bulkOp ∅ Demo.start
    = Returns (None, Some notConnected) Demo.start ∧
  Insert NewPostgreSQLAdapter Demo.bulkOp [VMap (MapAt 1)] Demo.start
    = Returns (Some notConnected) Demo.start ∧
  Update NewPostgreSQLAdapter Demo.bulkOp [VMap (MapAt 1)] Demo.start
    = Returns (Some notConnected) Demo.start ∧
  Delete NewPostgreSQLAdapter Demo.bulkOp [VMap (MapAt 1)] Demo.start
    = Returns (Some notConnected) Demo.start ∧
  Actions.Execute NewPostgreSQLAdapter {| Actions.Statement := "SELECT 1" |}
    ∅ Demo.start = Returns (None, Some notConnected) Demo.start.
Proof.
  split; [reflexivity|].
  apply (not_connected_guard NewPostgreSQLAdapter Demo.bulkOp
           {| Actions.Statement := "SELECT 1" |} ∅ [VMap (MapAt 1)] Demo.start).
  reflexivity.
Defined.

(** ** Reading: [Fetch] and [Execute] *)

Section ReadFacts.

Lemma extractArgs_missing (t : string) (p : gmap string value)
    (name : string) :
  name ∈ placeholderNames t → p !! name = None →
  ∃ missing, missing ∈ placeholderNames t ∧ p !! missing = None ∧
    extractArgs t p = (None, Some (missingParameter missing)).
Proof.
  intros Hin Hnone. unfold extractArgs.
  destruct (lookupAll_cases p (placeholderNames t) [])
    as [(vals & _ & Hvals)|(before & missing & after & Hn & _ & Hm & ->)].
  - apply list_elem_of_lookup in Hin as [i Hi].
    destruct (Forall2_lookup_l _ _ _ _ _ Hvals Hi) as (v & _ & Hv).
    congruence.
  - exists missing. split_and!; [|done..]. rewrite Hn. set_solver.
Qed.

Lemma scanRows_all (columns : list string) (rows : list (list value))
    (acc : list (gmap string value)) :
  Forall (λ row, length row = length columns) rows →
  scanRows columns (inr <$> rows) (Some acc)
  = inr (Some (acc ++ (buildResult columns <$> rows))).
Proof.
  intros Hrows. revert acc.
  induction Hrows as [|row rows Hrow _ IH]; intros acc; simpl.
  - by rewrite app_nil_r.
  - rewrite bool_decide_eq_true_2 by done. unfold appendSlice. simpl.
    by rewrite IH, <-app_assoc.
Qed.

Lemma scanRows_gather (columns : list string) (rows : list (list value)) :
  Forall (λ row, length row = length columns) rows →
  scanRows columns (inr <$> rows) None = inr (gatherRows columns rows).
Proof.
  intros Hrows. destruct Hrows as [|row rows Hrow Hrows]; [done|].
  simpl. rewrite bool_decide_eq_true_2 by done. unfold appendSlice. simpl.
  by rewrite scanRows_all.
Qed.

Lemma buildResult_lookup (columns : list string) (row : list value)
    (i : nat) (col : string) (v : value) :
  NoDup columns → columns !! i = Some col → row !! i = Some v →
  buildResult columns row !! col = Some v.
Proof.
  unfold buildResult.
  enough (∀ m, NoDup columns → columns !! i = Some col → row !! i = Some v →
    foldl (λ result cv, <[cv.1 := cv.2]> result) m (zip columns row) !! col
    = Some v) as H by apply H.
  revert row i. induction columns as [|c columns IH]; intros row i m Hnd Hc Hv;
    [done|].
  destruct row as [|x row]; [done|].
  apply NoDup_cons in Hnd as [Hc' Hnd].
  destruct i as [|i]; simpl in Hc, Hv.
  - injection Hc as ->. injection Hv as ->. simpl.
    clear IH Hnd. revert row m.
    induction columns as [|c columns IH]; intros row m.
    + simpl. by rewrite lookup_insert_eq.
    + destruct row as [|x row]; [simpl; by rewrite lookup_insert_eq|].
      simpl. apply not_elem_of_cons in Hc' as [Hne Hc'].
      rewrite insert_insert_ne by done. by apply IH.
  - simpl. by eapply IH.
Qed.

End ReadFacts.

(** X7: a placeholder without an entry stops [Fetch], [Execute] and
    [Update] before the driver is called: they return the
    missing-parameter error of a name that has no entry, and no statement is
    issued ([Update]: none for the first object, whose map lacks the
    entry). *)
Theorem missing_parameter_before_driver (a : PostgreSQLAdapter) (d : sqlDB)
    (op : Operation) (params : gmap string value) (name : string)
    (obj : mapref) (rest : list value) (w : world) :
  db a = Some d →
  name ∈ placeholderNames (Statement op) → params !! name = None →
  mapContents (heap w) obj = params →
  ∃ missing, missing ∈ placeholderNames (Statement op) ∧
    params !! missing = None ∧
    Fetch a op params w = Returns (None, Some (missingParameter missing)) w ∧
    Actions.Execute a {| Actions.Statement := Statement op |} params w
      = Returns (None, Some (missingParameter missing)) w ∧
    Update a op (VMap obj :: rest) w
      = Returns (Some (missingParameter missing)) w.
Proof.
  intros Hdb Hin Hnone Hobj.
  destruct (extractArgs_missing _ _ _ Hin Hnone) as (missing & Hm & Hmn & He).
  exists missing. unfold Fetch, Actions.Execute, Update. rewrite Hdb. simpl.
  rewrite He. split_and!; [done..|].
  unfold mbind, M_bind, bind, readContents, execOne. simpl.
  by rewrite Hobj, He.
Qed.

Lemma missing_parameter_before_driver_witness :
  db Demo.adapter = Some Demo.driver ∧
  "id" ∈ placeholderNames (Statement Samples.byId) ∧
  (∅ : gmap string value) !! "id" = None ∧
  mapContents (heap Demo.start) NilMap = ∅ ∧
  ∃ missing,
    missing ∈ placeholderNames (Statement Samples.byId) ∧
    (∅ : gmap string value) !! missing = None ∧
    Fetch Demo.adapter Samples.byId ∅ Demo.start
      = Returns (None, Some (missingParameter missing)) Demo.start ∧
    Actions.Execute Demo.adapter
      {| Actions.Statement := Statement Samples.byId |} ∅ Demo.start
      = Returns (None, Some (missingParameter missing)) Demo.start ∧
    Update Demo.adapter Samples.byId [VMap NilMap] Demo.start
      = Returns (Some (missingParameter missing)) Demo.start.
Proof.
  assert ("id" ∈ placeholderNames (Statement Samples.byId)) as Hin
    by (vm_compute; apply list_elem_of_here).
  split_and!; [reflexivity|exact Hin|reflexivity|reflexivity|].
  apply (missing_parameter_before_driver Demo.adapter Demo.driver
           Samples.byId ∅ "id" NilMap [] Demo.start);
    [reflexivity|exact Hin|reflexivity|reflexivity].
Defined.

(** X8: when the query gives a cursor whose rows all scan and that ends
    without error, [Fetch] issues exactly one query, the translated
    statement with the extracted arguments, and (unless there is no row and
    [Multi] is false) returns one map per row, in order, from column name
    to the value in that column; with distinct column names each map holds
    every value of its row. *)
Theorem fetch_rows_as_maps (a : PostgreSQLAdapter) (d : sqlDB)
    (op : Operation) (params : gmap string value) (args : list value)
    (columns : list string) (rows : list (list value)) (w : world) :
  db a = Some d →
  extractArgs (Statement op) params = (Some args, None) →
  onQuery d (length (calls w)) = Cursor columns (inr <$> rows) None →
  Forall (λ row, length row = length columns) rows →
  rows ≠ [] ∨ Multi op = true →
  Fetch a op params w =
    Returns (gatherRows columns rows, None)
      {| heap := heap w;
         calls := calls w ++
           [QueryCall (replaceNamedParams (Statement op)) args] |} ∧
  (NoDup columns → ∀ row i col v,
     row ∈ rows → columns !! i = Some col → row !! i = Some v →
     buildResult columns row !! col = Some v).
Proof.
  intros Hdb Hargs Hreply Hrows Hsome. split.
  - unfold Fetch. rewrite Hdb, Hargs.
    unfold mbind, M_bind, bind, queryContext. simpl. rewrite Hreply.
    rewrite scanRows_gather by done.
    destruct rows as [|row rows]; simpl.
    + destruct Hsome as [?|Hm]; [done|]. by rewrite Hm.
    + unfold lenSlice. simpl. done.
  - intros Hnd row i col v _. by apply buildResult_lookup.
Qed.

Lemma fetch_rows_as_maps_witness :
  Fetch Samples.usersAdapter Samples.usersBelow (<["max" := VInt 3]> ∅)
    Demo.start
  = Returns
      (Some [ <["id" := VInt 1]> (<["name" := VString "Ann"]> ∅);
              <["id" := VInt 2]> (<["name" := VString "Bob"]> ∅) ], None)
      {| heap := Demo.rows;
         calls := [QueryCall "SELECT id, name FROM users WHERE id < $1"
                     [VInt 3]] |}.
Proof.
  destruct (fetch_rows_as_maps Samples.usersAdapter Samples.usersDriver
    Samples.usersBelow (<["max" := VInt 3]> ∅) [VInt 3] ["id"; "name"]
    [[VInt 1; VString "Ann"]; [VInt 2; VString "Bob"]] Demo.start)
    as [Hrun _];
    [reflexivity|vm_compute; reflexivity|reflexivity
    |by repeat constructor|by left|].
  etrans; [exact Hrun|]. vm_compute. reflexivity.
Defined.

(** X9: [Execute] hands back what it read: for a cursor whose rows all
    scan it returns a non-nil interface holding the result maps (a nil slice
    when there is no row) together with the cursor's final error as it is,
    not wrapped; an empty result is no error, whatever the statement. *)
Theorem execute_returns_rows_and_iteration_error (a : PostgreSQLAdapter)
    (d : sqlDB) (action : Actions.Action) (params : gmap string value)
    (args : list value) (columns : list string) (rows : list (list value))
    (iterErr : option error) (w : world) :
  db a = Some d →
  extractArgs (Actions.Statement action) params = (Some args, None) →
  onQuery d (length (calls w)) = Cursor columns (inr <$> rows) iterErr →
  Forall (λ row, length row = length columns) rows →
  Actions.Execute a action params w =
    Returns (Some (gatherRows columns rows), iterErr)
      {| heap := heap w;
         calls := calls w ++
           [QueryCall (replaceNamedParams (Actions.Statement action)) args] |}.
Proof.
  intros Hdb Hargs Hreply Hrows.
  unfold Actions.Execute. rewrite Hdb, Hargs.
  unfold mbind, M_bind, bind, queryContext. simpl. rewrite Hreply.
  by rewrite scanRows_gather.
Qed.

Lemma execute_returns_rows_and_iteration_error_witness :
  Actions.Execute Samples.lostAdapter Samples.countUsers ∅ Demo.start
  = Returns (Some None, Some (DriverError "connection lost"))
      {| heap := Demo.rows;
         calls := [QueryCall "SELECT COUNT(*) AS n FROM users" []] |}.
Proof.
  etrans; [apply (execute_returns_rows_and_iteration_error
    Samples.lostAdapter Samples.lostDriver Samples.countUsers ∅ []
    ["n"] [] (Some (DriverError "connection lost")) Demo.start);
    [reflexivity|vm_compute; reflexivity|reflexivity|constructor]|].
  vm_compute. reflexivity.
Defined.

(** ** Writing: [Update], [Delete] and [Insert] on whole batches *)

Section BatchFacts.

Lemma stepwise_app (d : sqlDB) loop paramsOf what query
    (xs ys : list value) (w : world) :
  stepwise d loop paramsOf what query →
  loop (xs ++ ys) w = andThen (loop xs w) (loop ys).
Proof.
  intros [Hnil Hcons]. revert w.
  induction xs as [|x xs IH]; intros w; [by rewrite Hnil|].
  simpl. rewrite !Hcons. unfold mbind, M_bind, bind.
  destruct (paramsOf x w) as [params w1|msg w1]; [|done].
  destruct (execOne d what query params w1) as [[err|] w2|msg w2];
    [done| |done].
  apply IH.
Qed.

Lemma returningLoop_app (d : sqlDB) (op : Operation)
    (columns returningCols : list string) (xs ys : list value) (w : world) :
  returningLoop d op columns returningCols (xs ++ ys) w
  = andThen (returningLoop d op columns returningCols xs w)
            (returningLoop d op columns returningCols ys).
Proof.
  revert w. induction xs as [|x xs IH]; intros w; [done|].
  simpl. unfold mbind, M_bind, bind.
  destruct (assertMap x w) as [obj w1|msg w1]; [|done].
  unfold queryRowContext.
  destruct (onQueryRow d (length (calls w1))) as [err|scanDest]; [done|].
  case_bool_decide; [|done].
  match goal with |- context [writeBack obj (Generated op) scanDest ?w2] =>
    destruct (writeBack obj (Generated op) scanDest w2) as [[] w3|msg w3]
  end; [|done].
  apply IH.
Qed.

Lemma updateLoop_all (d : sqlDB) (query : string) (objs : list mapref)
    (w : world) :
  (∀ obj, obj ∈ objs → covers (mapContents (heap w) obj) query) →
  (∀ i, i < length objs →
     ∃ n, onExec d (length (calls w) + i) = ExecDone (inr n) ∧ n ≠ 0%Z) →
  ∃ argss,
    updateLoop d query (VMap <$> objs) w
      = Returns None
          {| heap := heap w;
             calls := calls w ++
               (ExecCall (replaceNamedParams query) <$> argss) |} ∧
    Forall2 (λ obj args,
      extractArgs query (mapContents (heap w) obj) = (Some args, None))
      objs argss.
Proof.
  revert w. induction objs as [|obj objs IH]; intros w Hcov Hrep.
  - exists []. split; [|done]. simpl. destruct w. unfold mret, M_ret, ret.
    simpl. by rewrite app_nil_r.
  - destruct (updateLoop_stepwise d query) as [_ Hcons].
    cbn [fmap list_fmap]. rewrite Hcons.
    unfold mbind, M_bind, bind. cbn [assertMap].
    unfold mret, M_ret, ret, readContents.
    destruct (execOne_run d "update" query (mapContents (heap w) obj) w)
      as [(missing & Hin & Hnone & _)|(args & Hargs & ->)].
    { destruct (Hcov obj ltac:(set_solver) missing Hin) as [v Hv].
      congruence. }
    destruct (Hrep 0) as (n & Hn & Hne); [simpl; lia|].
    rewrite Nat.add_0_r in Hn. rewrite Hn. unfold verdict.
    rewrite bool_decide_eq_false_2 by done.
    destruct (IH {| heap := heap w;
                    calls := calls w ++
                      [ExecCall (replaceNamedParams query) args] |})
      as (argss & Hrun & Hall).
    { intros o Ho. apply Hcov. set_solver. }
    { intros i Hi. simpl. rewrite length_app. simpl.
      destruct (Hrep (S i)) as (n' & Hn' & Hne'); [simpl; lia|].
      exists n'. split; [|done]. rewrite <-Hn'. f_equal. lia. }
    exists (args :: argss). split; [|by constructor].
    rewrite Hrun. simpl. by rewrite <-app_assoc.
Qed.

End BatchFacts.

(** X10: when every object is a map with an entry for each placeholder and
    every statement affects some row, [Update] returns no error after
    exactly one statement per object, in order: always the same translated
    text, with the arguments taken from that object. *)
Theorem update_one_statement_per_object (a : PostgreSQLAdapter) (d : sqlDB)
    (op : Operation) (objs : list mapref) (w : world) :
  db a = Some d →
  (∀ obj, obj ∈ objs → covers (mapContents (heap w) obj) (Statement op)) →
  (∀ i, i < length objs →
     ∃ n, onExec d (length (calls w) + i) = ExecDone (inr n) ∧ n ≠ 0%Z) →
  ∃ argss,
    Update a op (VMap <$> objs) w
      = Returns None
          {| heap := heap w;
             calls := calls w ++
               (ExecCall (replaceNamedParams (Statement op)) <$> argss) |} ∧
    Forall2 (λ obj args,
      extractArgs (Statement op) (mapContents (heap w) obj)
        = (Some args, None))
      objs argss.
Proof.
  intros Hdb Hcov Hrep. unfold Update. rewrite Hdb.
  by apply updateLoop_all.
Qed.

Lemma update_one_statement_per_object_witness :
  ∃ argss,
    Update Demo.adapter
      {| Statement := "UPDATE users SET email = {Email} WHERE name = {Name}";
         Properties := []; Generated := []; Multi := false |}
      (VMap <$> [MapAt 1; MapAt 2]) Demo.start
      = Returns None
          {| heap := heap Demo.start;
             calls := calls Demo.start ++
               (ExecCall "UPDATE users SET email = $1 WHERE name = $2"
                  <$> argss) |} ∧
    argss = [[VString "ann@x"; VString "Ann"]; [VString "bob@x"; VString "Bob"]].
Proof.
  destruct (update_one_statement_per_object Demo.adapter Demo.driver
    {| Statement := "UPDATE users SET email = {Email} WHERE name = {Name}";
       Properties := []; Generated := []; Multi := false |}
    [MapAt 1; MapAt 2] Demo.start) as (argss & Hrun & Hall).
  - reflexivity.
  - intros obj Hobj name Hname. vm_compute in Hname.
    apply elem_of_cons in Hname as [->|Hname];
      [|apply elem_of_cons in Hname as [->|Hname];
        [|by apply elem_of_nil in Hname]];
      (apply elem_of_cons in Hobj as [->|Hobj];
        [|apply elem_of_cons in Hobj as [->|Hobj];
          [|by apply elem_of_nil in Hobj]]);
      vm_compute; by eexists.
  - intros i _. exists 2%Z. by split.
  - exists argss. split.
    + etrans; [exact Hrun|]. vm_compute. reflexivity.
    + apply Forall2_cons_inv_l in Hall as (args1 & rest1 & H1 & Hall & ->).
      apply Forall2_cons_inv_l in Hall as (args2 & rest2 & H2 & Hall & ->).
      apply Forall2_nil_inv_l in Hall as ->.
      vm_compute in H1, H2. by injection H1 as <-; injection H2 as <-.
Defined.

(** X11: a batch is handled element by element, so [Update], [Delete] and
    an [Insert] with generated columns of a batch [xs ++ ys] do what the
    same call on [xs] does and, if that returned no error, what the call on
    [ys] does next; after an error or a panic in [xs] nothing of [ys] is
    looked at. *)
Theorem batches_run_in_sequence (a : PostgreSQLAdapter) (op : Operation)
    (xs ys : list value) (w : world) :
  Update a op (xs ++ ys) w = andThen (Update a op xs w) (Update a op ys) ∧
  Delete a op (xs ++ ys) w = andThen (Delete a op xs w) (Delete a op ys) ∧
  (Generated op ≠ [] →
   Insert a op (xs ++ ys) w = andThen (Insert a op xs w) (Insert a op ys)).
Proof.
  split_and!.
  - unfold Update. destruct (db a) as [d|]; [|done].
    apply (stepwise_app d _ _ _ _ xs ys w
             (updateLoop_stepwise d (Statement op))).
  - unfold Delete. destruct (db a) as [d|]; [|done].
    apply (stepwise_app d _ _ _ _ xs ys w
             (deleteLoop_stepwise d (Statement op))).
  - intros Hgen. unfold Insert. destruct (db a) as [d|]; [|done].
    assert (bool_decide (0 < length (Generated op)) = true) as ->
      by (apply bool_decide_eq_true_2; destruct (Generated op);
          [done|simpl; lia]).
    unfold insertWithReturning.
    set (cols := DataField <$> Properties op).
    set (rcols := DataField <$> Generated op).
    destruct xs as [|x xs]; [done|].
    rewrite (bool_decide_eq_false_2 (length ((x :: xs) ++ ys) = 0))
      by (simpl; lia).
    rewrite (bool_decide_eq_false_2 (length (x :: xs) = 0)) by (simpl; lia).
    rewrite returningLoop_app. unfold andThen.
    destruct (returningLoop d op cols rcols (x :: xs) w)
      as [[err|] w'|msg w']; try done.
    by destruct ys.
Qed.

(** ** Edge cases of the batches *)

Section EdgeFacts.

Lemma lookupAll_singleton (id : value) (names : list string)
    (acc : list value) :
  Forall (λ n, n = "id") names →
  lookupAll {[ "id" := id ]} names acc
  = (Some (acc ++ replicate (length names) id), None).
Proof.
  intros Hnames. revert acc.
  induction Hnames as [|name names -> _ IH]; intros acc; simpl.
  - by rewrite app_nil_r.
  - rewrite lookup_singleton_eq, IH, <-app_assoc. done.
Qed.

Lemma idParams_scalar (id : value) (w : world) :
  (∀ r, id ≠ VMap r) → idParams id w = Returns {[ "id" := id ]} w.
Proof. intros Hid. destruct id; try done. by destruct (Hid r). Qed.

Lemma assertMap_scalar (x : value) (w : world) :
  (∀ r, x ≠ VMap r) → ∃ msg, assertMap x w = Panics msg w.
Proof. intros Hx. destruct x; try by eexists. by destruct (Hx r). Qed.

Lemma bulkLoop_non_map (props : list Property) (pre : list value)
    (x : value) (rest : list value) (valueRows : list string) (k : nat)
    (allValues : list value) (w : world) :
  (∀ r, x ≠ VMap r) →
  ∃ msg, bulkLoop props (pre ++ x :: rest) valueRows k allValues w
         = Panics msg w.
Proof.
  intros Hx. revert valueRows k allValues.
  induction pre as [|y pre IH]; intros valueRows k allValues.
  - simpl. unfold mbind, M_bind, bind.
    destruct (assertMap_scalar x w Hx) as [msg ->]. by eexists.
  - simpl. unfold mbind, M_bind, bind.
    destruct y; try by eexists. simpl.
    destruct (bulkPlaceholders (heap w) r props [] k allValues)
      as [[ps k'] av].
    apply IH.
Qed.

Lemma rowValues_nil_map (h : store) (props : list Property) :
  rowValues h NilMap props = replicate (length props) VNil.
Proof.
  unfold rowValues.
  induction props as [|prop props IH]; [done|].
  cbn [fmap list_fmap length replicate]. rewrite <-IH.
  unfold mapIndex. simpl. by rewrite lookup_empty.
Qed.

Lemma Insert_bulk_run (a : PostgreSQLAdapter) (d : sqlDB) (op : Operation)
    (objs : list mapref) (w : world) :
  db a = Some d → Generated op = [] → objs ≠ [] →
  Insert a op (VMap <$> objs) w =
    Returns
      (match onExec d (length (calls w)) with
       | ExecFails err => Some (ErrorfW "postgresql: bulk insert failed: " err)
       | ExecDone _ => None
       end)
      {| heap := heap w;
         calls := calls w ++
           [ExecCall (bulkStatement op (length objs))
                     (bulkArgs (heap w) op objs)] |}.
Proof.
  intros Hdb Hgen Hne. unfold Insert. rewrite Hdb, Hgen.
  rewrite bool_decide_eq_false_2
    by (rewrite length_fmap; by destruct objs).
  rewrite bool_decide_eq_false_2 by (simpl; lia).
  unfold insertBulk, mbind, M_bind, bind. rewrite bulkLoop_spec.
  unfold execContext. simpl.
  assert ((λ i, tuple (S (i * length (Properties op)))
                  (length (Properties op))) <$> seq 0 (length objs)
    = (λ i, tuple (i * length (Properties op) + 1)
              (length (Properties op))) <$> seq 0 (length objs)) as ->.
  { apply list_fmap_ext. intros _ i _. f_equal. lia. }
  by destruct (onExec d (length (calls w))).
Qed.

End EdgeFacts.

(** X12: [Delete] takes an identifier that is not a map as the parameter
    [id], and nothing else: if every placeholder of the statement is
    [{id}], one statement is executed with the identifier as each argument,
    and its reply decides the result; a placeholder of another name makes
    the call fail with a missing-parameter error before any statement. *)
Theorem delete_scalar_identifier (a : PostgreSQLAdapter) (d : sqlDB)
    (op : Operation) (id : value) (w : world) :
  db a = Some d → (∀ r, id ≠ VMap r) →
  (Forall (λ n, n = "id") (placeholderNames (Statement op)) →
   Delete a op [id] w =
     Returns (verdict "delete" (onExec d (length (calls w))))
       {| heap := heap w;
          calls := calls w ++
            [ExecCall (replaceNamedParams (Statement op))
               (replicate (length (placeholderNames (Statement op))) id)] |}) ∧
  (∀ name, name ∈ placeholderNames (Statement op) → name ≠ "id" →
   ∃ missing, missing ≠ "id" ∧
     Delete a op [id] w = Returns (Some (missingParameter missing)) w).
Proof.
  intros Hdb Hid. unfold Delete. rewrite Hdb. simpl.
  unfold mbind, M_bind, bind. rewrite (idParams_scalar id w Hid).
  split.
  - intros Hnames.
    destruct (execOne_run d "delete" (Statement op) {[ "id" := id ]} w)
      as [(missing & Hin & Hnone & _)|(args & Hargs & ->)].
    { rewrite Forall_forall in Hnames. rewrite (Hnames _ Hin) in Hnone.
      by rewrite lookup_singleton_eq in Hnone. }
    unfold extractArgs in Hargs. rewrite lookupAll_singleton in Hargs by done.
    injection Hargs as <-. simpl.
    by destruct (verdict "delete" (onExec d (length (calls w)))).
  - intros name Hin Hne.
    destruct (extractArgs_missing (Statement op) {[ "id" := id ]} name Hin)
      as (missing & Hm & Hnone & Herr);
      [by rewrite lookup_singleton_ne|].
    exists missing. split.
    + intros ->. by rewrite lookup_singleton_eq in Hnone.
    + unfold execOne. by rewrite Herr.
Qed.

Lemma delete_scalar_identifier_witness :
  db Demo.adapter = Some Demo.driver ∧
  Delete Demo.adapter
    {| Statement := "DELETE FROM users WHERE id = {id}"; Properties := [];
       Generated := []; Multi := false |} [VInt 7] Demo.start
  = Returns None
      {| heap := Demo.rows;
         calls := [ExecCall "DELETE FROM users WHERE id = $1" [VInt 7]] |}.
Proof.
  split; [reflexivity|].
  destruct (delete_scalar_identifier Demo.adapter Demo.driver
    {| Statement := "DELETE FROM users WHERE id = {id}"; Properties := [];
       Generated := []; Multi := false |} (VInt 7) Demo.start)
    as [Hrun _]; [reflexivity|done|].
  etrans; [apply Hrun; vm_compute; by repeat constructor|].
  vm_compute. reflexivity.
Defined.

(** X13: an object that is not a map makes [Update] and [Insert] panic.
    Without generated columns [Insert] then has issued no statement at all,
    wherever in the batch the object stands; [Update], and [Insert] with
    generated columns, panic before the statement of that object. *)
Theorem non_map_object_panics (a : PostgreSQLAdapter) (d : sqlDB)
    (op : Operation) (pre : list value) (x : value) (rest : list value)
    (w : world) :
  db a = Some d → (∀ r, x ≠ VMap r) →
  (∃ msg, Update a op (x :: rest) w = Panics msg w) ∧
  (Generated op = [] →
   ∃ msg, Insert a op (pre ++ x :: rest) w = Panics msg w) ∧
  (Generated op ≠ [] →
   ∃ msg, Insert a op (x :: rest) w = Panics msg w).
Proof.
  intros Hdb Hx. split_and!.
  - unfold Update. rewrite Hdb. simpl. unfold mbind, M_bind, bind.
    destruct (assertMap_scalar x w Hx) as [msg ->]. by eexists.
  - intros Hgen. unfold Insert. rewrite Hdb, Hgen.
    rewrite bool_decide_eq_false_2
      by (rewrite length_app; simpl; lia).
    rewrite bool_decide_eq_false_2 by (simpl; lia).
    unfold insertBulk, mbind, M_bind, bind.
    destruct (bulkLoop_non_map (Properties op) pre x rest [] 1 [] w Hx)
      as [msg ->].
    by eexists.
  - intros Hgen. unfold Insert. rewrite Hdb. simpl.
    rewrite bool_decide_eq_true_2
      by (destruct (Generated op); [done|simpl; lia]).
    unfold insertWithReturning. simpl. unfold mbind, M_bind, bind.
    destruct (assertMap_scalar x w Hx) as [msg ->]. by eexists.
Qed.

Lemma non_map_object_panics_witness :
  db Demo.adapter = Some Demo.driver ∧
  (∃ msg, Update Demo.adapter Demo.bulkOp [VInt 3] Demo.start
          = Panics msg Demo.start) ∧
  (Generated Demo.bulkOp = [] →
   ∃ msg, Insert Demo.adapter Demo.bulkOp
            ([VMap (MapAt 1)] ++ VInt 3 :: []) Demo.start
          = Panics msg Demo.start) ∧
  (Generated Demo.bulkOp ≠ [] →
   ∃ msg, Insert Demo.adapter Demo.bulkOp [VInt 3] Demo.start
          = Panics msg Demo.start).
Proof.
  split; [reflexivity|].
  apply (non_map_object_panics Demo.adapter Demo.driver Demo.bulkOp
           [VMap (MapAt 1)] (VInt 3) [] Demo.start); [reflexivity|done].
Defined.

(** X14: an insert with generated columns that fails at some row returns
    the driver's error wrapped; the rows before it have been inserted and
    have received their generated values, the failing row's statement is
    the last one issued, and the rows after it are not looked at. *)
Theorem returning_insert_stops_at_failure (a : PostgreSQLAdapter)
    (d : sqlDB) (op : Operation) (ls : list loc) (obj : mapref)
    (rest : list value) (err : error) (w : world) :
  db a = Some d → Generated op ≠ [] →
  (∀ i, i < length ls →
     ∃ vals, onQueryRow d (length (calls w) + i) = Row vals ∧
             length vals = length (Generated op)) →
  onQueryRow d (length (calls w) + length ls) = RowFails err →
  Insert a op ((VMap ∘ MapAt <$> ls) ++ VMap obj :: rest) w =
    Returns
      (Some (ErrorfW "postgresql: insert with returning failed: " err))
      {| heap := storeAfter d (Generated op) (length (calls w)) ls (heap w);
         calls := (calls w ++
                   returningCalls d op (length (calls w)) ls (heap w)) ++
           [QueryRowCall (returningStatement op)
              (rowValues
                 (storeAfter d (Generated op) (length (calls w)) ls (heap w))
                 obj (Properties op))] |}.
Proof.
  intros Hdb Hgen Hrows Hfail. unfold Insert. rewrite Hdb.
  rewrite bool_decide_eq_false_2 by (rewrite length_app; simpl; lia).
  rewrite bool_decide_eq_true_2
    by (destruct (Generated op); [done|simpl; lia]).
  unfold insertWithReturning. rewrite returningLoop_app.
  rewrite returningLoop_spec by done. unfold andThen.
  cbn [returningLoop assertMap]. unfold mbind, M_bind, bind.
  unfold mret, M_ret, ret, queryRowContext. simpl.
  rewrite length_app.
  destruct (returningCalls_shape d op (length (calls w)) ls (heap w))
    as [-> _].
  rewrite Hfail. by rewrite returning_query.
Qed.

Lemma returning_insert_stops_at_failure_witness :
  Insert
    {| db := Some {| onQuery := onQuery Demo.driver;
                     onExec := onExec Demo.driver;
                     onQueryRow := λ n,
                       if bool_decide (n = 1)
                       then RowFails (DriverError "duplicate key")
                       else Row [VInt (100 + Z.of_nat n)] |};
       dsn := ""; maxConn := 10; maxIdle := 5; connMaxAge := 3600 |}
    Demo.returningOp
    ((VMap ∘ MapAt <$> [1]) ++ VMap (MapAt 2) :: [VInt 0]) Demo.start
  = Returns
      (Some (ErrorfW "postgresql: insert with returning failed: "
               (DriverError "duplicate key")))
      {| heap := <[1 := <["ID" := VInt 100]> Demo.ann]> Demo.rows;
         calls := [
           QueryRowCall
             "INSERT INTO users (name, email) VALUES ($1, $2) RETURNING id"
             [VString "Ann"; VString "ann@x"];
           QueryRowCall
             "INSERT INTO users (name, email) VALUES ($1, $2) RETURNING id"
             [VString "Bob"; VString "bob@x"]] |}.
Proof.
  etrans; [eapply (returning_insert_stops_at_failure _ _ Demo.returningOp
    [1] (MapAt 2) [VInt 0] (DriverError "duplicate key") Demo.start);
    [reflexivity|discriminate| |reflexivity]|].
  - intros i Hi. simpl in Hi. assert (i = 0) as -> by lia. by eexists.
  - vm_compute. reflexivity.
Defined.

(** X15: a row that is a nil map gets its statement, with [nil] for every
    column, and only then makes [Insert] with generated columns panic, when
    the generated value is to be written into it. *)
Theorem returning_insert_nil_map_panics (a : PostgreSQLAdapter) (d : sqlDB)
    (op : Operation) (rest : list value) (vals : list value) (w : world) :
  db a = Some d → Generated op ≠ [] →
  onQueryRow d (length (calls w)) = Row vals →
  length vals = length (Generated op) →
  ∃ msg,
    Insert a op (VMap NilMap :: rest) w =
      Panics msg
        {| heap := heap w;
           calls := calls w ++
             [QueryRowCall (returningStatement op)
                (replicate (length (Properties op)) VNil)] |}.
Proof.
  intros Hdb Hgen Hrow Hlen. unfold Insert. rewrite Hdb. simpl.
  rewrite bool_decide_eq_true_2
    by (destruct (Generated op); [done|simpl; lia]).
  unfold insertWithReturning. cbn [returningLoop assertMap].
  unfold mbind, M_bind, bind, mret, M_ret, ret, queryRowContext. simpl.
  rewrite Hrow. rewrite bool_decide_eq_true_2 by done.
  rewrite returning_query, rowValues_nil_map.
  destruct (Generated op) as [|gen gens]; [done|].
  simpl. by eexists.
Qed.

Lemma returning_insert_nil_map_panics_witness :
  db Demo.adapter = Some Demo.driver ∧
  ∃ msg,
    Insert Demo.adapter Demo.returningOp [VMap NilMap] Demo.start =
      Panics msg
        {| heap := Demo.rows;
           calls := [QueryRowCall
             "INSERT INTO users (name, email) VALUES ($1, $2) RETURNING id"
             [VNil; VNil]] |}.
Proof.
  split; [reflexivity|].
  destruct (returning_insert_nil_map_panics Demo.adapter Demo.driver
    Demo.returningOp [] [VInt 100] Demo.start) as [msg Hrun];
    [reflexivity|discriminate|reflexivity|reflexivity|].
  exists msg. etrans; [exact Hrun|]. vm_compute. reflexivity.
Defined.

(** X16: [Insert] never complains about a row that lacks a mapped field:
    without generated columns the statement is issued all the same and the
    argument at the place of that field is [nil]; the only error it can
    return is the wrapped error of the driver. *)
Theorem bulk_insert_missing_field_is_nil (a : PostgreSQLAdapter) (d : sqlDB)
    (op : Operation) (objs : list mapref) (i j : nat) (obj : mapref)
    (prop : Property) (w : world) :
  db a = Some d → Generated op = [] →
  objs !! i = Some obj → Properties op !! j = Some prop →
  mapContents (heap w) obj !! ObjectField prop = None →
  ∃ r args,
    Insert a op (VMap <$> objs) w =
      Returns r
        {| heap := heap w;
           calls := calls w ++
             [ExecCall (bulkStatement op (length objs)) args] |} ∧
    args !! (i * length (Properties op) + j) = Some VNil ∧
    (r = None ∨
     ∃ cause, r = Some (ErrorfW "postgresql: bulk insert failed: " cause)).
Proof.
  intros Hdb Hgen Hi Hj Hnone.
  eexists _, (bulkArgs (heap w) op objs). split_and!.
  - apply Insert_bulk_run; [done..|]. intros ->. done.
  - rewrite (bulkArgs_lookup _ _ _ _ _ _ _ Hi Hj).
    unfold mapIndex. by rewrite Hnone.
  - destruct (onExec d (length (calls w))); eauto.
Qed.

Lemma bulk_insert_missing_field_is_nil_witness :
  ∃ r args,
    Insert Demo.adapter Demo.bulkOp (VMap <$> [MapAt 1; MapAt 5]) Demo.start =
      Returns r
        {| heap := heap Demo.start;
           calls := calls Demo.start ++
             [ExecCall (bulkStatement Demo.bulkOp 2) args] |} ∧
    args !! (1 * length (Properties Demo.bulkOp) + 1) = Some VNil ∧
    (r = None ∨
     ∃ cause, r = Some (ErrorfW "postgresql: bulk insert failed: " cause)).
Proof.
  apply (bulk_insert_missing_field_is_nil Demo.adapter Demo.driver
    Demo.bulkOp [MapAt 1; MapAt 5] 1 1 (MapAt 5)
    {| ObjectField := "Email"; DataField := "email" |} Demo.start);
    reflexivity.
Defined.

(** ** Connecting *)

Section ConnectFacts.

Context {float64 : Type} (intOfFloat : float64 → Z).

Lemma getStringConfig_other_key (config : gmap string (Config.setting))
    (key key' defaultVal : string) (x : Config.setting) :
  key' ≠ key →
  Config.getStringConfig (<[key' := x]> config) key defaultVal
  = Config.getStringConfig (float64 := float64) config key defaultVal.
Proof.
  intros Hne. unfold Config.getStringConfig. by rewrite lookup_insert_ne.
Qed.

End ConnectFacts.

(** X17: [Connect] takes over the opened handle only after the ping went
    through.  It returns no error exactly when opening and pinging with the
    data source name it built succeed, and then the adapter holds that
    handle, which was not closed; otherwise it returns the driver's error
    wrapped, the adapter's handle is the one it had (an adapter never
    connected keeps refusing every method), and a handle that was opened
    but did not answer has been closed. *)
Theorem connect_keeps_handle_only_after_ping {float64 : Type}
    (intOfFloat : float64 → Z) (env : Config.sqlEnv)
    (a : PostgreSQLAdapter) (config : gmap string Config.setting) :
  (Config.connectError intOfFloat env a config = None ↔
     ∃ opened,
       Config.sqlOpen env (dsn (Config.adapterAfter intOfFloat env a config))
         = inr opened ∧
       Config.pingContext env (dsn (Config.adapterAfter intOfFloat env a config))
         = None) ∧
  (Config.connectError intOfFloat env a config = None →
     ∃ opened,
       Config.sqlOpen env (dsn (Config.adapterAfter intOfFloat env a config))
         = inr opened ∧
       db (Config.adapterAfter intOfFloat env a config) = Some opened ∧
       (Config.CloseDB ∉ Config.handleEvents intOfFloat env a config) ∧
       ∀ op w, Insert (Config.adapterAfter intOfFloat env a config) op [] w
               = Returns None w) ∧
  (Config.connectError intOfFloat env a config ≠ None →
     db (Config.adapterAfter intOfFloat env a config) = db a ∧
     (∃ msg cause, Config.connectError intOfFloat env a config
                   = Some (ErrorfW msg cause)) ∧
     (Config.handleEvents intOfFloat env a config = [] ∨
      last (Config.handleEvents intOfFloat env a config)
        = Some Config.CloseDB) ∧
     (db a = None →
      ∀ op objects w,
        Insert (Config.adapterAfter intOfFloat env a config) op objects w
        = Returns (Some notConnected) w)).
Proof.
  unfold Config.connectError, Config.adapterAfter, Config.handleEvents,
    Config.Connect.
  set (dsn' := Config.formatDSN _ _ _ _ _ _).
  destruct (Config.sqlOpen env dsn') as [err|opened] eqn:Hopen; simpl.
  - rewrite Hopen. split_and!.
    + split; [done|]. by intros (? & ? & _).
    + done.
    + intros _. split_and!; [done|by eexists _, _|by left|].
      intros Hdb op objects w. unfold Insert. simpl. by rewrite Hdb.
  - destruct (Config.pingContext env dsn') as [err|] eqn:Hping; simpl;
      rewrite Hopen, Hping.
    + split_and!.
      * split; [done|]. by intros (? & _ & ?).
      * done.
      * intros _. split_and!; [done|by eexists _, _|by right|].
        intros Hdb op objects w. unfold Insert. simpl. by rewrite Hdb.
    + split_and!.
      * split; [|done]. intros _. by exists opened.
      * intros _. exists opened. split_and!; [done..| |done].
        intros Hin. repeat (apply elem_of_cons in Hin as [Hin|Hin]; [done|]).
        by apply elem_of_nil in Hin.
      * done.
Qed.

(** X18: entries of the wrong type count as absent.  When none of the
    five text keys holds a string and [port] holds neither an int nor a
    float64, the data source name is built from the defaults; a pool size
    that is not given as an int leaves the adapter's value. *)
Theorem connect_defaults {float64 : Type} (intOfFloat : float64 → Z)
    (env : Config.sqlEnv) (a : PostgreSQLAdapter)
    (config : gmap string Config.setting) :
  (∀ key, key ∈ [Config.ConfigHost; Config.ConfigUser; Config.ConfigPassword;
                 Config.ConfigDatabase; Config.ConfigSSLMode] →
     Config.assertString (config !! key) = None) →
  Config.assertInt (config !! Config.ConfigPort) = None →
  Config.assertFloat (config !! Config.ConfigPort) = None →
  dsn (Config.adapterAfter intOfFloat env a config)
    = "host=localhost port=5432 user=postgres password= dbname= sslmode=disable" ∧
  (Config.assertInt (config !! Config.ConfigMaxConn) = None →
   maxConn (Config.adapterAfter intOfFloat env a config) = maxConn a) ∧
  (Config.assertInt (config !! Config.ConfigMaxIdle) = None →
   maxIdle (Config.adapterAfter intOfFloat env a config) = maxIdle a) ∧
  (Config.assertInt (config !! Config.ConfigConnAge) = None →
   connMaxAge (Config.adapterAfter intOfFloat env a config) = connMaxAge a).
Proof.
  intros Hstr Hint Hfloat.
  assert (dsn (Config.adapterAfter intOfFloat env a config)
          = Config.formatDSN
              (Config.getStringConfig config Config.ConfigHost "localhost")
              (Config.getIntConfig intOfFloat config Config.ConfigPort 5432)
              (Config.getStringConfig config Config.ConfigUser "postgres")
              (Config.getStringConfig config Config.ConfigPassword "")
              (Config.getStringConfig config Config.ConfigDatabase "")
              (Config.getStringConfig config Config.ConfigSSLMode "disable"))
    as Hdsn.
  { unfold Config.adapterAfter, Config.Connect.
    destruct (Config.sqlOpen env _); [done|].
    by destruct (Config.pingContext env _). }
  split_and!.
  - rewrite Hdsn. unfold Config.getStringConfig, Config.getIntConfig.
    rewrite !Hstr, Hint, Hfloat by set_solver. vm_compute. reflexivity.
  - intros H. unfold Config.adapterAfter, Config.Connect. rewrite H.
    destruct (Config.sqlOpen env _); [done|].
    by destruct (Config.pingContext env _).
  - intros H. unfold Config.adapterAfter, Config.Connect. rewrite H.
    destruct (Config.sqlOpen env _); [done|].
    by destruct (Config.pingContext env _).
  - intros H. unfold Config.adapterAfter, Config.Connect. rewrite H.
    destruct (Config.sqlOpen env _); [done|].
    by destruct (Config.pingContext env _).
Qed.

Lemma connect_defaults_witness :
  dsn (Config.adapterAfter Samples.truncate Samples.reachable
         NewPostgreSQLAdapter
         (<["host" := Config.SInt 7]>
            (<["max_connections" := Config.SFloat (20%Z, 1%positive)]> ∅)))
    = "host=localhost port=5432 user=postgres password= dbname= sslmode=disable" ∧
  maxConn (Config.adapterAfter Samples.truncate Samples.reachable
             NewPostgreSQLAdapter
             (<["host" := Config.SInt 7]>
                (<["max_connections" := Config.SFloat (20%Z, 1%positive)]> ∅)))
    = 10%Z.
Proof.
  destruct (connect_defaults Samples.truncate Samples.reachable
    NewPostgreSQLAdapter
    (<["host" := Config.SInt 7]>
       (<["max_connections" := Config.SFloat (20%Z, 1%positive)]> ∅)))
    as (Hdsn & Hconn & _).
  - intros key Hkey.
    repeat (apply elem_of_cons in Hkey as [->|Hkey]; [reflexivity|]).
    by apply elem_of_nil in Hkey.
  - reflexivity.
  - reflexivity.
  - split; [exact Hdsn|]. by apply Hconn.
Defined.

(** X19: the port may be given as a float64 and is then converted to an
    int, giving the data source name of the converted port; the pool
    sizes and the connection age are taken from int entries only, a
    float64 there is ignored. *)
Theorem connect_number_types {float64 : Type} (intOfFloat : float64 → Z)
    (env : Config.sqlEnv) (a : PostgreSQLAdapter)
    (config : gmap string Config.setting) (f : float64) :
  (config !! Config.ConfigPort = Some (Config.SFloat f) →
   dsn (Config.adapterAfter intOfFloat env a config)
   = dsn (Config.adapterAfter intOfFloat env a
            (<[Config.ConfigPort := Config.SInt (intOfFloat f)]> config))) ∧
  (config !! Config.ConfigMaxConn = Some (Config.SFloat f) →
   maxConn (Config.adapterAfter intOfFloat env a config) = maxConn a) ∧
  (config !! Config.ConfigMaxIdle = Some (Config.SFloat f) →
   maxIdle (Config.adapterAfter intOfFloat env a config) = maxIdle a) ∧
  (config !! Config.ConfigConnAge = Some (Config.SFloat f) →
   connMaxAge (Config.adapterAfter intOfFloat env a config) = connMaxAge a).
Proof.
  assert (∀ config', dsn (Config.adapterAfter intOfFloat env a config')
          = Config.formatDSN
              (Config.getStringConfig config' Config.ConfigHost "localhost")
              (Config.getIntConfig intOfFloat config' Config.ConfigPort 5432)
              (Config.getStringConfig config' Config.ConfigUser "postgres")
              (Config.getStringConfig config' Config.ConfigPassword "")
              (Config.getStringConfig config' Config.ConfigDatabase "")
              (Config.getStringConfig config' Config.ConfigSSLMode "disable"))
    as Hdsn.
  { intros config'. unfold Config.adapterAfter, Config.Connect.
    destruct (Config.sqlOpen env _); [done|].
    by destruct (Config.pingContext env _). }
  split_and!.
  - intros Hport. rewrite !Hdsn.
    rewrite !getStringConfig_other_key by done.
    unfold Config.getIntConfig. by rewrite Hport, lookup_insert_eq.
  - intros H. unfold Config.adapterAfter, Config.Connect. rewrite H. simpl.
    destruct (Config.sqlOpen env _); [done|].
    by destruct (Config.pingContext env _).
  - intros H. unfold Config.adapterAfter, Config.Connect. rewrite H. simpl.
    destruct (Config.sqlOpen env _); [done|].
    by destruct (Config.pingContext env _).
  - intros H. unfold Config.adapterAfter, Config.Connect. rewrite H. simpl.
    destruct (Config.sqlOpen env _); [done|].
    by destruct (Config.pingContext env _).
Qed.
